(** * mergecap: merging the PCAP files of a directory into one capture

    A shallow embedding of [mergecap.cpp] and the properties of its three
    stages: the directory scanner, the header probe and the merger.

    Conventions.
    - Fixed-width integers are [Z] with the wrap-around written out
      ([wrap64] for [uint64_t] and [size_t], [to_off_t] for [off_t]).
    - File contents are [list byte]; the structs overlaid on the probe
      buffer are decoded field by field in the byte order of the host.
    - Everything outside the program (the file system, the kernel's
      answers to [open], [read], [write], [realloc], ...) is gathered in a
      [world]; the libc's [qsort] is an interface with its contract.
    - A file is known by its path: the file system maps path strings to
      files, and two different strings name two different files (no links,
      and the paths the program composes are taken as they are).  Creating
      the output changes the file system the scan then sees.
    - A computation ends in [Done], is [Blocked] when the kernel's answers
      run out while the program is still looping, or is [Undefined] when it
      would access memory it does not own. *)

From Stdlib Require Import ZArith Lia Sorting.Sorted Strings.Byte Strings.Ascii.
From stdpp Require Import base list strings gmap sorting.

Open Scope Z_scope.

(** ** Machine integers *)

Definition wrap64 (z : Z) : Z := z mod 2 ^ 64.

(** [off_t]: the signed reading of a 64-bit pattern. *)
Definition to_off_t (z : Z) : Z :=
  let u := wrap64 z in if u <? 2 ^ 63 then u else u - 2 ^ 64.

Definition PTRDIFF_MAX : Z := 2 ^ 63 - 1.

(** ** Bytes and the host's byte order *)

Inductive endianness := LittleEndian | BigEndian.

Abbreviation byte := Byte.byte.

Definition byte_val (b : byte) : Z := Z.of_N (Byte.to_N b).

Fixpoint le_value (bs : list byte) : Z :=
  match bs with
  | [] => 0
  | b :: rest => byte_val b + 256 * le_value rest
  end.

(** The value of an unsigned integer object stored in [bs]. *)
Definition load (e : endianness) (bs : list byte) : Z :=
  match e with
  | LittleEndian => le_value bs
  | BigEndian => le_value (reverse bs)
  end.

(** The unsigned field of [width] bytes at byte offset [off] of a buffer. *)
Definition field (e : endianness) (buf : list byte) (off width : nat) : Z :=
  load e (take width (drop off buf)).

(** ** C strings *)

(** [s + n] for a [char*]: the string that starts [n] characters later. *)
Fixpoint str_drop (n : nat) (s : string) : string :=
  match n, s with
  | O, _ => s
  | S n', EmptyString => EmptyString
  | S n', String _ rest => str_drop n' rest
  end.

(** The first [n] characters, as [snprintf] keeps them. *)
Fixpoint str_take (n : nat) (s : string) : string :=
  match n, s with
  | O, _ => EmptyString
  | S n', EmptyString => EmptyString
  | S n', String c rest => String c (str_take n' rest)
  end.

Definition strlen (s : string) : Z := Z.of_nat (String.length s).

Definition char_code (c : ascii) : Z := Z.of_N (N_of_ascii c).

(** [tolower] in the "C" locale (the program never calls [setlocale]). *)
Definition tolower (c : Z) : Z :=
  if (65 <=? c) && (c <=? 90) then c + 32 else c.

(** [strcasecmp]: the difference of the first pair of characters that
    differ after lower-casing, the terminator counting as 0. *)
Fixpoint strcasecmp (s1 s2 : string) : Z :=
  match s1, s2 with
  | EmptyString, EmptyString => 0
  | EmptyString, String c2 _ => 0 - tolower (char_code c2)
  | String c1 _, EmptyString => tolower (char_code c1) - 0
  | String c1 r1, String c2 r2 =>
      if tolower (char_code c1) =? tolower (char_code c2)
      then strcasecmp r1 r2
      else tolower (char_code c1) - tolower (char_code c2)
  end.

(** ** The libc's [qsort]

    The algorithm is the library's own.  Its contract: for a comparison
    function that is total, the array ends up a rearrangement of itself in
    which no element compares greater than its successor. *)

Definition cmp_total {A} (cmp : A → A → Z) : Prop :=
  ∀ a b, cmp a b <= 0 ∨ cmp b a <= 0.

Class Libc := {
  qsort : ∀ {A : Type}, (A → A → Z) → list A → list A;
  qsort_permutation : ∀ A (cmp : A → A → Z) (l : list A),
    qsort cmp l ≡ₚ l;
  qsort_sorted : ∀ A (cmp : A → A → Z) (l : list A),
    cmp_total cmp → Sorted (λ a b, cmp a b <= 0) (qsort cmp l)
}.

(** A reference implementation (insertion sort), used to run the model. *)
Fixpoint cmp_insert {A} (cmp : A → A → Z) (x : A) (l : list A) : list A :=
  match l with
  | [] => [x]
  | y :: rest => if cmp x y <=? 0 then x :: l else y :: cmp_insert cmp x rest
  end.

Fixpoint insertion_sort {A} (cmp : A → A → Z) (l : list A) : list A :=
  match l with
  | [] => []
  | x :: rest => cmp_insert cmp x (insertion_sort cmp rest)
  end.

(** ** Outcomes *)

Inductive exec (A : Type) : Type :=
  | Done (a : A)
  | Blocked
  | Undefined.
Arguments Done {A} a.
Arguments Blocked {A}.
Arguments Undefined {A}.

Global Instance exec_ret : MRet exec := λ A a, Done a.
Global Instance exec_bind : MBind exec := λ A B k c,
  match c with
  | Done a => k a
  | Blocked => Blocked
  | Undefined => Undefined
  end.

(** ** The PCAP format: namespace [pcap] *)

Module pcap.

Definition magic_microseconds : Z := 0xa1b2c3d4.
Definition magic_nanoseconds : Z := 0xa1b23c4d.

Definition version_major : Z := 2.
Definition version_minor : Z := 4.

Record pcap_file_header := {
  magic : Z;
  fh_version_major : Z;
  fh_version_minor : Z;
  thiszone : Z;
  sigfigs : Z;
  snaplen : Z;
  linktype : Z
}.
Definition sizeof_pcap_file_header : Z := 4 + 2 + 2 + 4 + 4 + 4 + 4.

Record timeval := { tv_sec : Z; tv_usec : Z }.

Record pcap_pkthdr := { ts : timeval; caplen : Z; len : Z }.
Definition sizeof_pcap_pkthdr : Z := (4 + 4) + 4 + 4.

(** Minimum size of a PCAP file. *)
Definition minimum_size : Z := sizeof_pcap_file_header + sizeof_pcap_pkthdr.

(** The struct overlays ([reinterpret_cast]) on a byte buffer. *)
Definition as_file_header (e : endianness) (buf : list byte)
  : pcap_file_header :=
  {| magic := field e buf 0 4;
     fh_version_major := field e buf 4 2;
     fh_version_minor := field e buf 6 2;
     thiszone := (let u := field e buf 8 4 in
                  if u <? 2 ^ 31 then u else u - 2 ^ 32);
     sigfigs := field e buf 12 4;
     snaplen := field e buf 16 4;
     linktype := field e buf 20 4 |}.

Definition as_pkthdr (e : endianness) (buf : list byte) : pcap_pkthdr :=
  {| ts := {| tv_sec := field e buf 0 4; tv_usec := field e buf 4 4 |};
     caplen := field e buf 8 4;
     len := field e buf 12 4 |}.

(** PCAP file. *)
Record file := {
  filename : string;
  filesize : Z;
  timestamp : Z
}.
Definition sizeof_file : Z := 8 + 8 + 8.

End pcap.

(** ** The world around the program *)

Inductive file_type := S_IFDIR | S_IFREG | S_IFOTHER.

(** What a path names: [stat] reports its type and size; the data is what a
    regular file holds. *)
Record inode := { i_type : file_type; i_data : list byte }.

(** How the kernel answers one call. *)
Inductive read_resp :=
  | RData (k : nat)        (* at most [k] bytes are delivered *)
  | RError.                (* -1 *)

Inductive write_resp :=
  | WAccept (k : nat)      (* at most [k] bytes are taken *)
  | WError (errno : Z).    (* -1 with this [errno] *)

Record probe_resp := { probe_open : bool; probe_read : read_resp }.

Record alloc_resp := {
  realloc_ok : bool;
  fresh : pcap.file;       (* what the cells of a grown block hold *)
  strdup_ok : bool
}.

Record copy_resp := {
  copy_open : bool;
  copy_mmap : bool;
  copy_writes : list write_resp
}.

Record world := {
  PATH_MAX : nat;
  byte_order : endianness;
  nodes : gmap string inode;
  dir_entries : list string;      (* what [readdir] hands out, in order,
                                     when the scan runs *)
  create_ok : bool;               (* [open] of the output *)
  opendir_ok : bool;
  ftruncate_ok : bool;
  on_probe : nat → probe_resp;    (* by position in the directory stream *)
  on_add : Z → alloc_resp;        (* by number of entries stored so far *)
  on_copy : Z → copy_resp         (* by position in the sorted list *)
}.

Definition EINTR : Z := 4.

Record stat_buf := { st_mode : file_type; st_size : Z }.

Definition stat (w : world) (path : string) : option stat_buf :=
  i ← nodes w !! path;
  Some {| st_mode := i_type i; st_size := Z.of_nat (length (i_data i)) |}.

Definition S_ISDIR (m : file_type) : bool :=
  match m with S_IFDIR => true | _ => false end.
Definition S_ISREG (m : file_type) : bool :=
  match m with S_IFREG => true | _ => false end.

(** [open(path, O_RDONLY)]: the descriptor stands for the inode. *)
Definition sys_open (w : world) (ok : bool) (path : string) : option inode :=
  if ok then nodes w !! path else None.

(** [read(fd, buf, count)] at offset 0: the return value and the bytes put
    in the buffer. *)
Definition sys_read (r : read_resp) (fd : inode) (count : Z)
  : Z * list byte :=
  match r, i_type fd with
  | RData k, S_IFREG =>
      let bs := take (k `min` Z.to_nat count) (i_data fd) in
      (Z.of_nat (length bs), bs)
  | _, _ => (-1, [])
  end.

(** [mmap(nullptr, length, PROT_READ, MAP_SHARED, fd, 0)]: the bytes that can
    be read through the mapping. *)
Definition sys_mmap (ok : bool) (fd : inode) (length : Z)
  : option (list byte) :=
  match i_type fd with
  | S_IFREG => if ok && negb (length =? 0) then Some (i_data fd) else None
  | _ => None
  end.

(** The output descriptor: the file's bytes and the file offset. *)
Record ofile := { o_data : list byte; o_pos : nat }.

(** The file system once [open(path, O_CREAT | O_TRUNC | O_WRONLY, 0644)]
    has succeeded: a regular file at [path] is cut to length 0, a missing one
    is created empty; [O_TRUNC] does nothing to a file of another type. *)
Definition truncated (nodes : gmap string inode) (path : string)
  : gmap string inode :=
  match nodes !! path with
  | Some i =>
      match i_type i with
      | S_IFREG => <[path := {| i_type := S_IFREG; i_data := [] |}]> nodes
      | _ => nodes
      end
  | None => <[path := {| i_type := S_IFREG; i_data := [] |}]> nodes
  end.

Definition created (w : world) (path : string) : world :=
  {| PATH_MAX := PATH_MAX w;
     byte_order := byte_order w;
     nodes := truncated (nodes w) path;
     dir_entries := dir_entries w;
     create_ok := create_ok w;
     opendir_ok := opendir_ok w;
     ftruncate_ok := ftruncate_ok w;
     on_probe := on_probe w;
     on_add := on_add w;
     on_copy := on_copy w |}.

(** [open(path, O_CREAT | O_TRUNC | O_WRONLY, 0644)]: the world the call
    leaves and the descriptor, at offset 0 of the empty file.  Whether the
    call succeeds (permissions, a path that names a directory, ...) is the
    world's to say; a call that fails changes nothing. *)
Definition sys_creat (w : world) (path : string) : option (world * ofile) :=
  if create_ok w
  then Some (created w path, {| o_data := []; o_pos := 0 |})
  else None.

(** [ftruncate(fd, length)], the length converted to [off_t]. *)
Definition sys_ftruncate (w : world) (fd : ofile) (length : Z)
  : option ofile :=
  if ftruncate_ok w && (0 <=? to_off_t length)
  then Some {| o_data := resize (Z.to_nat (to_off_t length)) x00%byte
                                (o_data fd);
               o_pos := o_pos fd |}
  else None.

(** What a file becomes when [bs] is written at offset [pos]. *)
Definition overwrite (data : list byte) (pos : nat) (bs : list byte)
  : list byte :=
  resize pos x00%byte data ++ bs ++ drop (pos + length bs)%nat data.

(** [write(fd, buf, count)]: return value, [errno] and the descriptor.
    Nothing happens to the file when no byte is taken. *)
Definition sys_write (r : write_resp) (fd : ofile) (buf : list byte)
  (count : Z) : Z * Z * ofile :=
  match r with
  | WAccept k =>
      match take (k `min` Z.to_nat count) buf with
      | [] => (0, 0, fd)
      | bs =>
          (Z.of_nat (length bs), 0,
           {| o_data := overwrite (o_data fd) (o_pos fd) bs;
              o_pos := (o_pos fd + length bs)%nat |})
      end
  | WError e => (-1, e, fd)
  end.

(** [realloc(ptr, nbytes)] on an array of [pcap.file]: the cells kept and
    the fresh ones.  Requests above [PTRDIFF_MAX] are always refused. *)
Definition realloc (r : alloc_resp) (old : list pcap.file) (nbytes : Z)
  : option (list pcap.file) :=
  if realloc_ok r && (nbytes <=? PTRDIFF_MAX)
  then Some (resize (Z.to_nat (nbytes / pcap.sizeof_file)) (fresh r) old)
  else None.

(** ** List of PCAP files: class [pcap::files] *)

Module files.
Import pcap.

Record t := {
  _M_files : list file;      (* the heap block, one cell per slot *)
  _M_size : Z;
  _M_used : Z
}.

(** Default member initialisers. *)
Definition empty : t := {| _M_files := []; _M_size := 0; _M_used := 0 |}.

(** The entries stored so far: the first [_M_used] cells. *)
Definition entries (f : t) : list file :=
  take (Z.to_nat (_M_used f)) (_M_files f).

(** Allocate. *)
Definition allocate (r : alloc_resp) (f : t) : bool * t :=
  if _M_used f <? _M_size f then (true, f)
  else
    let size := if _M_size f >? 0 then wrap64 (_M_size f * 2) else 1024 in
    match realloc r (_M_files f) (wrap64 (size * sizeof_file)) with
    | Some files =>
        (true, {| _M_files := files; _M_size := size; _M_used := _M_used f |})
    | None => (false, f)
    end.

(** Add PCAP file. *)
Definition add (r : alloc_resp) (f : t)
  (filename : string) (filesize timestamp : Z) : exec (bool * t) :=
  let '(ok, f) := allocate r f in
  if ok then
    if strdup_ok r then
      let entry := Z.to_nat (_M_used f) in
      if decide (entry < length (_M_files f))%nat then
        Done (true,
              {| _M_files :=
                   <[entry := {| filename := filename;
                                 filesize := filesize;
                                 timestamp := timestamp |}]> (_M_files f);
                 _M_size := _M_size f;
                 _M_used := wrap64 (_M_used f + 1) |})
      else Undefined
    else Done (false, f)
  else Done (false, f).

Definition compare (f1 f2 : file) : Z :=
  if timestamp f1 <? timestamp f2 then -1
  else if timestamp f1 >? timestamp f2 then 1
  else 0.

(** Sort: [qsort] over the first [_M_used] cells. *)
Definition sort `{Libc} (f : t) : t :=
  {| _M_files := qsort compare (take (Z.to_nat (_M_used f)) (_M_files f))
                 ++ drop (Z.to_nat (_M_used f)) (_M_files f);
     _M_size := _M_size f;
     _M_used := _M_used f |}.

(** Get PCAP file: the address of a cell, as its index, or [nullptr]. *)
Definition get (f : t) (idx : Z) : option Z :=
  if idx <? _M_used f then Some idx else None.

(** Reading through a pointer returned by [get]. *)
Definition deref (f : t) (p : Z) : exec file :=
  if 0 <=? p then
    match _M_files f !! Z.to_nat p with
    | Some e => Done e
    | None => Undefined
    end
  else Undefined.

End files.

(** ** The header probe *)

Definition get_first_timestamp (w : world) (r : probe_resp)
  (filename : string) : option Z :=
  match sys_open w (probe_open r) filename with
  | Some fd =>
      let '(n, buf) := sys_read (probe_read r) fd pcap.minimum_size in
      if n =? pcap.minimum_size then
        let filehdr := pcap.as_file_header (byte_order w) buf in
        if ((pcap.magic filehdr =? pcap.magic_microseconds)
            || (pcap.magic filehdr =? pcap.magic_nanoseconds))
           && (pcap.fh_version_major filehdr =? pcap.version_major)
           && (pcap.fh_version_minor filehdr =? pcap.version_minor)
        then
          let pkthdr :=
            pcap.as_pkthdr (byte_order w)
              (drop (Z.to_nat pcap.sizeof_pcap_file_header) buf) in
          Some (wrap64 (wrap64 (pcap.tv_sec (pcap.ts pkthdr) * 1000000)
                        + pcap.tv_usec (pcap.ts pkthdr)))
        else None
      else None
  | None => None
  end.

(** ** Copying one input *)

(** One turn of the [do ... while (true)] loop. *)
Inductive turn :=
  | Return (ok : bool) (outfd : ofile)
  | Again (ptr written : Z) (outfd : ofile).

Definition copy_turn (base : list byte) (to_copy : Z) (r : write_resp)
  (ptr written : Z) (outfd : ofile) : turn :=
  let '(ret, errno, outfd) :=
    sys_write r outfd (drop (Z.to_nat ptr) base) (wrap64 (to_copy - written)) in
  if ret >? 0 then
    let written := wrap64 (written + ret) in
    if written =? to_copy then Return true outfd
    else Again (ptr + ret) written outfd
  else if ret <? 0 then
    if negb (errno =? EINTR) then Return false outfd
    else Again ptr written outfd
  else Again ptr written outfd.

Fixpoint write_loop (base : list byte) (to_copy : Z) (rs : list write_resp)
  (ptr written : Z) (outfd : ofile) : exec (bool * ofile) :=
  match rs with
  | [] => Blocked
  | r :: rs =>
      match copy_turn base to_copy r ptr written outfd with
      | Return ok outfd => Done (ok, outfd)
      | Again ptr written outfd => write_loop base to_copy rs ptr written outfd
      end
  end.

Definition copy_file (w : world) (r : copy_resp) (outfd : ofile)
  (filename : string) (filesize offset : Z) : exec (bool * ofile) :=
  match sys_open w (copy_open r) filename with
  | Some infd =>
      match sys_mmap (copy_mmap r) infd filesize with
      | Some base =>
          write_loop base (wrap64 (filesize - offset)) (copy_writes r)
            offset 0 outfd
      | None => Done (false, outfd)
      end
  | None => Done (false, outfd)
  end.

(** ** The program *)

(** The lines written to standard error. *)
Inductive diagnostic :=
  | Usage (program : string)
  | NotADirectory (path : string)
  | ErrorOpeningFile (path : string)
  | ErrorOpeningDirectory (path : string)
  | ErrorAllocatingMemory
  | ErrorTruncating (path : string) (size : Z)
  | ErrorCopying (to_copy : Z) (src dst : string).

(** What the run leaves at the output path. *)
Inductive output_path :=
  | Untouched                       (* never created by this run *)
  | Unlinked                        (* created, then removed *)
  | Written (data : list byte).     (* created and closed *)

Record result := {
  status : Z;                       (* the value [main] returns *)
  stderr : list diagnostic;
  output : output_path
}.

(** [snprintf(pathname, sizeof(pathname), "%s/%s", dir, d_name)]. *)
Definition compose_pathname (w : world) (dir d_name : string) : string :=
  str_take (PATH_MAX w - 1) (dir +:+ "/" +:+ d_name).

(** If it is a regular file and is not too small... *)
Definition regular_and_large (w : world) (pathname : string)
  : option stat_buf :=
  match stat w pathname with
  | Some sbuf =>
      if S_ISREG (st_mode sbuf) && (st_size sbuf >? to_off_t pcap.minimum_size)
      then Some sbuf else None
  | None => None
  end.

(** PCAP file? *)
Definition pcap_name (d_name : string) : bool :=
  let len := strlen d_name in
  (len >? 5)
  && bool_decide (String.get (Z.to_nat (len - 5)) d_name = Some "."%char)
  && (strcasecmp (str_drop (Z.to_nat (len - 4)) d_name) "pcap" =? 0).

(** The entries the scanner hands to the probe. *)
Definition candidate (w : world) (dir d_name : string) : bool :=
  match regular_and_large w (compose_pathname w dir d_name) with
  | Some _ => pcap_name d_name
  | None => false
  end.

(** The body of the [readdir] loop, for the [k]-th entry.  [None] is the
    exit on an allocation failure. *)
Definition scan_entry (w : world) (dir : string) (k : nat) (d_name : string)
  (files : files.t) (filesize : Z) : exec (option (files.t * Z)) :=
  let pathname := compose_pathname w dir d_name in
  match regular_and_large w pathname with
  | Some sbuf =>
      if pcap_name d_name then
        match get_first_timestamp w (on_probe w k) pathname with
        | Some timestamp =>
            '(ok, files) ← files.add (on_add w (files._M_used files)) files
                             pathname (wrap64 (st_size sbuf)) timestamp;
            if ok : bool then
              Done (Some (files,
                          wrap64 (filesize
                                  + wrap64 (st_size sbuf
                                            - pcap.sizeof_pcap_file_header))))
            else Done None
        | None => Done (Some (files, filesize))
        end
      else Done (Some (files, filesize))
  | None => Done (Some (files, filesize))
  end.

Fixpoint scan (w : world) (dir : string) (names : list string) (k : nat)
  (files : files.t) (filesize : Z) : exec (option (files.t * Z)) :=
  match names with
  | [] => Done (Some (files, filesize))
  | d_name :: names =>
      st ← scan_entry w dir k d_name files filesize;
      match st with
      | Some (files, filesize) => scan w dir names (S k) files filesize
      | None => Done None
      end
  end.

(** The whole [readdir] loop of [main]. *)
Definition scan_directory (w : world) (dir : string)
  : exec (option (files.t * Z)) :=
  scan w dir (dir_entries w) 0 files.empty pcap.sizeof_pcap_file_header.

(** The copy loop of [main], from index [i]; it runs at most once per stored
    entry, plus the turn that finds [nullptr]. *)
Fixpoint copy_all (w : world) (dst : string) (files : files.t) (turns : nat)
  (i : Z) (fd : ofile) : exec (ofile + diagnostic) :=
  match turns with
  | O => Blocked
  | S turns =>
      match files.get files i with
      | None => Done (inl fd)
      | Some p =>
          file ← files.deref files p;
          let offset := if i >? 0 then pcap.sizeof_pcap_file_header else 0 in
          '(ok, fd) ← copy_file w (on_copy w i) fd (pcap.filename file)
                        (pcap.filesize file) offset;
          if ok : bool then copy_all w dst files turns (wrap64 (i + 1)) fd
          else
            let to_copy :=
              if i >? 0
              then wrap64 (pcap.filesize file - pcap.sizeof_pcap_file_header)
              else pcap.filesize file in
            Done (inr (ErrorCopying to_copy (pcap.filename file) dst))
      end
  end.

Definition failure (d : diagnostic) (o : output_path) : result :=
  {| status := -1; stderr := [d]; output := o |}.

(** [main].  From the creation of the output on, [w] is the world that
    creation leaves: the scan sees the output as an empty file. *)
Definition main `{Libc} (w : world) (argv : list string) : exec result :=
  match argv with
  | [program; directory; filename] =>
      match stat w directory with
      | Some sbuf =>
          if S_ISDIR (st_mode sbuf) then
            match sys_creat w filename with
            | Some (w, fd) =>
                if opendir_ok w then
                  st ← scan_directory w directory;
                  match st with
                  | Some (files, filesize) =>
                      match sys_ftruncate w fd filesize with
                      | Some fd =>
                          let files := files.sort files in
                          c ← copy_all w filename files
                                (S (Z.to_nat (files._M_used files))) 0 fd;
                          match c with
                          | inl fd =>
                              Done {| status := 0; stderr := [];
                                      output := Written (o_data fd) |}
                          | inr d => Done (failure d Unlinked)
                          end
                      | None =>
                          Done (failure (ErrorTruncating filename filesize)
                                        Unlinked)
                      end
                  | None => Done (failure ErrorAllocatingMemory Unlinked)
                  end
                else Done (failure (ErrorOpeningDirectory directory) Unlinked)
            | None => Done (failure (ErrorOpeningFile filename) Untouched)
            end
          else Done (failure (NotADirectory directory) Untouched)
      | None => Done (failure (NotADirectory directory) Untouched)
      end
  | _ => Done (failure (Usage (default "" (argv !! 0%nat))) Untouched)
  end.

(** ** Concrete worlds *)

(** Building captures: [width] bytes of [z], least significant first. *)
Fixpoint bytes_le (width : nat) (z : Z) : list byte :=
  match width with
  | O => []
  | S width =>
      default x00%byte (Byte.of_N (Z.to_N (z mod 256)))
        :: bytes_le width (z / 256)
  end.

(** A little-endian capture: the file header, one packet header with the
    given time stamp, and [payload] bytes of value 1. *)
Definition capture (magic major minor sec usec : Z) (payload : nat)
  : list byte :=
  bytes_le 4 magic ++ bytes_le 2 major ++ bytes_le 2 minor
  ++ bytes_le 4 0 ++ bytes_le 4 0 ++ bytes_le 4 65535 ++ bytes_le 4 1
  ++ bytes_le 4 sec ++ bytes_le 4 usec
  ++ bytes_le 4 (Z.of_nat payload) ++ bytes_le 4 (Z.of_nat payload)
  ++ replicate payload x01%byte.

Definition regular (data : list byte) : inode :=
  {| i_type := S_IFREG; i_data := data |}.

Definition junk : pcap.file :=
  {| pcap.filename := ""; pcap.filesize := 0; pcap.timestamp := 0 |}.

Definition calm_alloc : alloc_resp :=
  {| realloc_ok := true; fresh := junk; strdup_ok := true |}.

(** A world in which every call succeeds and every [write] takes all it is
    given. *)
Definition calm (nodes : gmap string inode) (names : list string) : world :=
  {| PATH_MAX := Z.to_nat 4096;
     byte_order := LittleEndian;
     nodes := nodes;
     dir_entries := names;
     create_ok := true;
     opendir_ok := true;
     ftruncate_ok := true;
     on_probe := λ _, {| probe_open := true; probe_read := RData 64 |};
     on_add := λ _, calm_alloc;
     on_copy := λ _, {| copy_open := true; copy_mmap := true;
                        copy_writes := [WAccept 1024] |} |}.

(** Two microsecond captures: A with first packet at (100, 500000) and 80
    bytes, B at (90, 250000) and 72 bytes, beside files that are skipped. *)
Definition file_A : list byte := capture 0xa1b2c3d4 2 4 100 500000 40.
Definition file_B : list byte := capture 0xa1b2c3d4 2 4 90 250000 32.

Definition two_captures : world :=
  calm (<["caps" := {| i_type := S_IFDIR; i_data := [] |}]>
        (<["caps/A.pcap" := regular file_A]>
        (<["caps/B.PCAP" := regular file_B]>
        (<["caps/README.txt" := regular (replicate 100 x41%byte)]>
        (<["caps/corrupt.pcap" := regular (capture 0xa1b2c3d5 2 4 1 1 40)]>
        (<["caps/S.pcap" := regular (take 30 file_A)]> ∅))))))
       ["."; ".."; "A.pcap"; "README.txt"; "B.PCAP"; "corrupt.pcap";
        "S.pcap"].

(** [two_captures] on a disk that fills up during the second copy: 16 bytes
    are taken, an interruption follows, then [ENOSPC]. *)
Definition disk_full : world :=
  {| PATH_MAX := PATH_MAX two_captures;
     byte_order := byte_order two_captures;
     nodes := nodes two_captures;
     dir_entries := dir_entries two_captures;
     create_ok := true;
     opendir_ok := true;
     ftruncate_ok := true;
     on_probe := on_probe two_captures;
     on_add := on_add two_captures;
     on_copy := λ i,
       if i =? 0 then on_copy two_captures i
       else {| copy_open := true; copy_mmap := true;
               copy_writes := [WAccept 16; WError EINTR; WError 28] |} |}.

(** A nanosecond capture whose first packet is at (5, 999999999), alone in
    its directory, and the same directory seen from a big-endian host. *)
Definition file_N : list byte := capture 0xa1b23c4d 2 4 5 999999999 8.

Definition nano_capture : world :=
  calm (<["caps" := {| i_type := S_IFDIR; i_data := [] |}]>
        (<["caps/N.pcap" := regular file_N]> ∅))
       ["N.pcap"].

Definition big_endian_host : world :=
  {| PATH_MAX := PATH_MAX nano_capture;
     byte_order := BigEndian;
     nodes := nodes nano_capture;
     dir_entries := dir_entries nano_capture;
     create_ok := true;
     opendir_ok := true;
     ftruncate_ok := true;
     on_probe := on_probe nano_capture;
     on_add := on_add nano_capture;
     on_copy := on_copy nano_capture |}.

(** [two_captures] when [strdup] fails on the second [add]. *)
Definition out_of_memory : world :=
  {| PATH_MAX := PATH_MAX two_captures;
     byte_order := byte_order two_captures;
     nodes := nodes two_captures;
     dir_entries := dir_entries two_captures;
     create_ok := true;
     opendir_ok := true;
     ftruncate_ok := true;
     on_probe := on_probe two_captures;
     on_add := λ used,
       if used =? 0 then calm_alloc
       else {| realloc_ok := true; fresh := junk; strdup_ok := false |};
     on_copy := on_copy two_captures |}.

(** A directory with A and a file that has A's first 40 bytes followed by
    other bytes. *)
Definition same_start : world :=
  calm (<["caps" := {| i_type := S_IFDIR; i_data := [] |}]>
        (<["caps/A.pcap" := regular file_A]>
        (<["caps/A2.pcap" :=
             regular (take 40 file_A ++ replicate 7 x02%byte)]> ∅)))
       ["A.pcap"; "A2.pcap"].

(** [two_captures] with the result of an earlier merge left in the
    directory: a valid capture of 128 bytes, older than A and B. *)
Definition stale_merge : world :=
  calm (<["caps/merged.pcap" :=
            regular (capture 0xa1b2c3d4 2 4 1 0 88)]> (nodes two_captures))
       ["A.pcap"; "merged.pcap"; "B.PCAP"].

(** A capture given byte by byte: magic d4 c3 b2 a1, version 2.4, first
    packet at 0x00000064 seconds and 0x0007a120 microseconds in the byte
    order of a little-endian host, then the same capture as a big-endian
    host writes it. *)
Definition raw_le : list byte :=
  [xd4; xc3; xb2; xa1;  x02; x00;  x04; x00;
   x00; x00; x00; x00;  x00; x00; x00; x00;
   xff; xff; x00; x00;  x01; x00; x00; x00;
   x64; x00; x00; x00;  x20; xa1; x07; x00;
   x01; x00; x00; x00;  x01; x00; x00; x00;
   xee]%byte.

Definition raw_be : list byte :=
  [xa1; xb2; xc3; xd4;  x00; x02;  x00; x04;
   x00; x00; x00; x00;  x00; x00; x00; x00;
   x00; x00; xff; xff;  x00; x00; x00; x01;
   x00; x00; x00; x64;  x00; x07; xa1; x20;
   x00; x00; x00; x01;  x00; x00; x00; x01;
   xee]%byte.

Definition raw_captures (e : endianness) : world :=
  {| PATH_MAX := Z.to_nat 4096;
     byte_order := e;
     nodes := <["caps" := {| i_type := S_IFDIR; i_data := [] |}]>
              (<["caps/le.pcap" := regular raw_le]>
              (<["caps/be.pcap" := regular raw_be]> ∅));
     dir_entries := ["le.pcap"; "be.pcap"];
     create_ok := true;
     opendir_ok := true;
     ftruncate_ok := true;
     on_probe := λ _, {| probe_open := true; probe_read := RData 64 |};
     on_add := λ _, calm_alloc;
     on_copy := λ _, {| copy_open := true; copy_mmap := true;
                        copy_writes := [WAccept 1024] |} |}.

(** A directory with the single capture A, and one without any capture. *)
Definition one_capture : world :=
  calm (<["caps" := {| i_type := S_IFDIR; i_data := [] |}]>
        (<["caps/A.pcap" := regular file_A]> ∅))
       ["."; ".."; "A.pcap"].

Definition no_capture : world :=
  calm (<["caps" := {| i_type := S_IFDIR; i_data := [] |}]>
        (<["caps/README.txt" := regular (replicate 100 x41%byte)]> ∅))
       ["."; ".."; "README.txt"].

(** The list object after A alone has been added to an empty one. *)
Definition entry_A : pcap.file :=
  {| pcap.filename := "caps/A.pcap"; pcap.filesize := 80;
     pcap.timestamp := 100500000 |}.

Definition files_with_A : files.t :=
  {| files._M_files := <[0%nat := entry_A]> (replicate (Z.to_nat 1024) junk);
     files._M_size := 1024;
     files._M_used := 1 |}.

(** The list object after the scan of [two_captures]: A, then B. *)
Definition entry_B : pcap.file :=
  {| pcap.filename := "caps/B.PCAP"; pcap.filesize := 72;
     pcap.timestamp := 90250000 |}.

Definition files_with_A_B : files.t :=
  {| files._M_files :=
       <[1%nat := entry_B]> (files._M_files files_with_A);
     files._M_size := 1024;
     files._M_used := 2 |}.

(** ** Vocabulary of the statements *)

(** File sizes are [off_t] values. *)
Definition world_ok (w : world) : Prop :=
  ∀ path i, nodes w !! path = Some i → Z.of_nat (length (i_data i)) < 2 ^ 63.

(** The bytes of the file at [path], and its body: what follows the file
    header. *)
Definition contents (w : world) (path : string) : list byte :=
  match nodes w !! path with
  | Some i => i_data i
  | None => []
  end.

Definition body (w : world) (path : string) : list byte :=
  drop (Z.to_nat pcap.sizeof_pcap_file_header) (contents w path).

(** The bytes of a buffer as numbers, and the unsigned 16- and 32-bit
    integers that a host of byte order [e] reads at byte [off]. *)
Definition byte_at (buf : list byte) (i : nat) : Z :=
  byte_val (default x00%byte (buf !! i)).

Definition u16_at (e : endianness) (buf : list byte) (off : nat) : Z :=
  match e with
  | LittleEndian => byte_at buf off + 2 ^ 8 * byte_at buf (off + 1)
  | BigEndian => 2 ^ 8 * byte_at buf off + byte_at buf (off + 1)
  end.

Definition u32_at (e : endianness) (buf : list byte) (off : nat) : Z :=
  match e with
  | LittleEndian =>
      byte_at buf off + 2 ^ 8 * byte_at buf (off + 1)
      + 2 ^ 16 * byte_at buf (off + 2) + 2 ^ 24 * byte_at buf (off + 3)
  | BigEndian =>
      2 ^ 24 * byte_at buf off + 2 ^ 16 * byte_at buf (off + 1)
      + 2 ^ 8 * byte_at buf (off + 2) + byte_at buf (off + 3)
  end.

(** Two characters are the same up to the case of the ASCII letters. *)
Definition ascii_ci_eq (a b : ascii) : Prop :=
  let x := char_code a in
  let y := char_code b in
  x = y ∨ (65 <= x <= 90 ∧ y = x + 32) ∨ (65 <= y <= 90 ∧ x = y + 32).

(** The name test in the words of the specification: at least 6 characters,
    a dot 5 positions from the end, and the last 4 characters equal to
    "pcap" up to case. *)
Definition dot_pcap_suffix (name : string) : Prop :=
  let cs := String.list_ascii_of_string name in
  (6 ≤ length cs)%nat
  ∧ cs !! (length cs - 5)%nat = Some "."%char
  ∧ Forall2 ascii_ci_eq (drop (length cs - 4) cs) (String.list_ascii_of_string "pcap").

(** The states of a [pcap::files] object, each with the sequence of entries
    it stands for: empty at construction, one more entry after each [add]
    that returns true, rearranged by [sort]. *)
Inductive reach `{Libc} : files.t → list pcap.file → Prop :=
  | reach_empty : reach files.empty []
  | reach_add_true f l r name size ts f' :
      reach f l →
      files.add r f name size ts = Done (true, f') →
      reach f' (l ++ [{| pcap.filename := name; pcap.filesize := size;
                         pcap.timestamp := ts |}])
  | reach_add_false f l r name size ts f' :
      reach f l →
      files.add r f name size ts = Done (false, f') →
      reach f' l
  | reach_sort f l :
      reach f l → reach (files.sort f) (qsort files.compare l).

(** The invariant of the class. *)
Definition files_wf (f : files.t) : Prop :=
  Z.of_nat (length (files._M_files f)) = files._M_size f
  ∧ 0 <= files._M_used f <= files._M_size f
  ∧ files._M_size f * pcap.sizeof_file <= PTRDIFF_MAX.

(** The merged stream of a sorted list of entries: the first file whole,
    then the bodies of the others. *)
Definition merged (w : world) (es : list pcap.file) : list byte :=
  match es with
  | [] => []
  | first :: rest =>
      contents w (pcap.filename first)
      ++ mjoin ((λ e, body w (pcap.filename e)) <$> rest)
  end.

(** The sum of the sizes of the files named by [es], each less the file
    header. *)
Definition input_sizes (w : world) (es : list pcap.file) : Z :=
  foldr (λ e acc, Z.of_nat (length (contents w (pcap.filename e)))
                  - pcap.sizeof_pcap_file_header + acc) 0 es.

(** The descriptor after [bs] has been written through it. *)
Definition write_at (fd : ofile) (bs : list byte) : ofile :=
  match bs with
  | [] => fd
  | _ => {| o_data := overwrite (o_data fd) (o_pos fd) bs;
            o_pos := (o_pos fd + length bs)%nat |}
  end.


(** What the scanner has established about an entry it stored: the path
    names a regular file of more than 40 bytes whose size is the one
    recorded. *)
Definition accepted (w : world) (e : pcap.file) : Prop :=
  ∃ i, nodes w !! pcap.filename e = Some i
       ∧ i_type i = S_IFREG
       ∧ pcap.filesize e = wrap64 (Z.of_nat (length (i_data i)))
       ∧ 40 < Z.of_nat (length (i_data i)).

(** The sum of the recorded sizes, each less the file header. *)
Definition body_sizes (es : list pcap.file) : Z :=
  foldr (λ e acc, pcap.filesize e - pcap.sizeof_pcap_file_header + acc) 0 es.

(** What holds of the list and of the running output size between two
    turns of the [readdir] loop. *)
Definition scan_inv (w : world) (fs : files.t) (filesize : Z) : Prop :=
  files_wf fs
  ∧ Forall (accepted w) (files.entries fs)
  ∧ filesize
    = wrap64 (pcap.sizeof_pcap_file_header + body_sizes (files.entries fs)).

(** A world whose every copy ends with a [write] willing to take a whole
    file: no copy is left waiting for an answer. *)
Definition patient (w : world) : Prop :=
  ∀ i, ∃ rs k,
    copy_writes (on_copy w i) = rs ++ [WAccept k]
    ∧ ∀ path nd, nodes w !! path = Some nd → (length (i_data nd) ≤ k)%nat.

(** An answer of [write] that the copy loop passes over: a write of no
    byte, or an interruption. *)
Definition passed_over (r : write_resp) : bool :=
  match r with
  | WAccept O => true
  | WAccept (S _) => false
  | WError e => e =? EINTR
  end.

(** The entry the [readdir] loop stores for the [k]-th name of the stream,
    if it stores one: the composed path, the size [stat] reported and the
    time stamp the probe returned. *)
Definition probed_entry (w : world) (dir : string) (k : nat)
  (d_name : string) : option pcap.file :=
  let pathname := compose_pathname w dir d_name in
  if candidate w dir d_name then
    sbuf ← stat w pathname;
    timestamp ← get_first_timestamp w (on_probe w k) pathname;
    Some {| pcap.filename := pathname;
            pcap.filesize := wrap64 (st_size sbuf);
            pcap.timestamp := timestamp |}
  else None.

Fixpoint probed (w : world) (dir : string) (k : nat) (names : list string)
  : list pcap.file :=
  match names with
  | [] => []
  | d_name :: names =>
      match probed_entry w dir k d_name with
      | Some e => e :: probed w dir (S k) names
      | None => probed w dir (S k) names
      end
  end.

(** The time of the first packet as the file records it: the packet header
    that follows the 24-byte file header. *)
Definition first_packet (w : world) (path : string) : pcap.timeval :=
  pcap.ts (pcap.as_pkthdr (byte_order w)
             (drop 24 (take 40 (contents w path)))).

(** * Properties *)

(** ** The reference [qsort] meets the contract *)

Lemma cmp_insert_permutation {A} (cmp : A → A → Z) x l :
  cmp_insert cmp x l ≡ₚ x :: l.
Proof.
  induction l as [|y l IH]; simpl; [done|].
  destruct (cmp x y <=? 0); [done|].
  rewrite IH. apply Permutation_swap.
Qed.

Lemma insertion_sort_permutation {A} (cmp : A → A → Z) l :
  insertion_sort cmp l ≡ₚ l.
Proof.
  induction l as [|x l IH]; simpl; [done|].
  by rewrite cmp_insert_permutation, IH.
Qed.

Lemma cmp_insert_hd {A} (cmp : A → A → Z) a x l :
  cmp a x <= 0 → HdRel (λ a b, cmp a b <= 0) a l →
  HdRel (λ a b, cmp a b <= 0) a (cmp_insert cmp x l).
Proof.
  intros Hax Hal. destruct l as [|y l]; simpl; [by constructor|].
  destruct (cmp x y <=? 0); constructor; [done|].
  by inversion Hal.
Qed.

Lemma cmp_insert_sorted {A} (cmp : A → A → Z) x l :
  cmp_total cmp →
  Sorted (λ a b, cmp a b <= 0) l →
  Sorted (λ a b, cmp a b <= 0) (cmp_insert cmp x l).
Proof.
  intros Htot. induction 1 as [|y l Hl IH Hy]; simpl.
  - repeat constructor.
  - destruct (cmp x y <=? 0) eqn:Hxy.
    + apply Z.leb_le in Hxy. by repeat constructor.
    + apply Z.leb_gt in Hxy. constructor; [done|].
      apply cmp_insert_hd; [|done].
      destruct (Htot x y); [lia|done].
Qed.

Lemma insertion_sort_sorted {A} (cmp : A → A → Z) l :
  cmp_total cmp → Sorted (λ a b, cmp a b <= 0) (insertion_sort cmp l).
Proof.
  intros Htot. induction l as [|x l IH]; simpl; [constructor|].
  by apply cmp_insert_sorted.
Qed.

#[local] Instance reference_libc : Libc :=
  {| qsort := @insertion_sort;
     qsort_permutation := @insertion_sort_permutation;
     qsort_sorted := @insertion_sort_sorted |}.


(** ** C strings *)

Lemma length_list_ascii s :
  length (String.list_ascii_of_string s) = String.length s.
Proof. induction s; simpl; congruence. Qed.

Lemma get_list_ascii n s :
  String.get n s = String.list_ascii_of_string s !! n.
Proof.
  revert n. induction s as [|c s IH]; intros [|n]; simpl; by try apply IH.
Qed.

Lemma str_drop_list_ascii n s :
  String.list_ascii_of_string (str_drop n s)
  = drop n (String.list_ascii_of_string s).
Proof.
  revert s. induction n as [|n IH]; intros [|c s]; simpl; by try apply IH.
Qed.

Lemma tolower_eq_iff x y :
  tolower x = tolower y ↔
  x = y ∨ (65 <= x <= 90 ∧ y = x + 32) ∨ (65 <= y <= 90 ∧ x = y + 32).
Proof.
  unfold tolower.
  destruct (65 <=? x) eqn:H1, (x <=? 90) eqn:H2,
           (65 <=? y) eqn:H3, (y <=? 90) eqn:H4; simpl; lia.
Qed.

(** On strings of one length, [strcasecmp] returns 0 exactly when the
    characters agree up to case. *)
Lemma strcasecmp_zero s1 s2 :
  String.length s1 = String.length s2 →
  strcasecmp s1 s2 = 0 ↔
  Forall2 ascii_ci_eq (String.list_ascii_of_string s1)
                      (String.list_ascii_of_string s2).
Proof.
  revert s2. induction s1 as [|c1 s1 IH]; intros [|c2 s2] Hlen;
    simpl in *; try discriminate.
  - split; [constructor | done].
  - injection Hlen as Hlen.
    destruct (tolower (char_code c1) =? tolower (char_code c2)) eqn:Hc.
    + apply Z.eqb_eq in Hc. rewrite (IH s2 Hlen). split.
      * intros Hrest. constructor; [|done]. by apply tolower_eq_iff.
      * by inversion 1.
    + apply Z.eqb_neq in Hc. split; [lia|].
      inversion 1 as [|? ? ? ? Hci]; subst.
      destruct Hc. by apply tolower_eq_iff.
Qed.

(** ** The directory scanner (C5) *)

Lemma pcap_name_spec d_name : pcap_name d_name = true ↔ dot_pcap_suffix d_name.
Proof.
  unfold pcap_name, dot_pcap_suffix, strlen; simpl.
  rewrite length_list_ascii.
  set (n := String.length d_name).
  rewrite !andb_true_iff, bool_decide_eq_true, Z.gtb_gt, Z.eqb_eq.
  rewrite get_list_ascii.
  destruct (decide (6 ≤ n)%nat) as [Hn|Hn]; [|lia].
  replace (Z.to_nat (Z.of_nat n - 5)) with (n - 5)%nat by lia.
  replace (Z.to_nat (Z.of_nat n - 4)) with (n - 4)%nat by lia.
  rewrite (strcasecmp_zero (str_drop (n - 4) d_name) "pcap").
  - rewrite str_drop_list_ascii. simpl. intuition lia.
  - rewrite <- !length_list_ascii, str_drop_list_ascii, length_drop.
    rewrite length_list_ascii. fold n. simpl. lia.
Qed.

(** The test of the loop body is [candidate]: an entry that fails it is
    passed over, an entry that passes is handed to the probe and, when the
    probe accepts, to [add]. *)
Lemma scan_entry_candidate w dir k d_name fs sz :
  scan_entry w dir k d_name fs sz
  = if candidate w dir d_name then
      match stat w (compose_pathname w dir d_name) with
      | Some sbuf =>
          match get_first_timestamp w (on_probe w k)
                  (compose_pathname w dir d_name) with
          | Some timestamp =>
              '(ok, files) ← files.add (on_add w (files._M_used fs)) fs
                               (compose_pathname w dir d_name)
                               (wrap64 (st_size sbuf)) timestamp;
              if ok : bool then
                Done (Some (files,
                            wrap64 (sz + wrap64 (st_size sbuf - 24))))
              else Done None
          | None => Done (Some (fs, sz))
          end
      | None => Done (Some (fs, sz))
      end
    else Done (Some (fs, sz)).
Proof.
  unfold scan_entry, candidate, regular_and_large.
  destruct (stat w (compose_pathname w dir d_name)) as [sbuf|]; [|done].
  destruct (S_ISREG (st_mode sbuf) && (st_size sbuf >? to_off_t pcap.minimum_size));
    [|done].
  by destruct (pcap_name d_name).
Qed.

(** C5. The body of the [readdir] loop hands a directory entry to the probe
    exactly when [stat] on the composed path finds a regular file of more
    than 40 bytes and the entry's name has at least 6 characters, a dot 5
    positions from its end and "pcap", in any case, as its last 4
    characters.  An entry that fails the test leaves the list and the
    running size as they were; an entry that passes is probed, and stored
    by [add] with the size [stat] reported when the probe accepts. *)
Theorem scanner_admits_iff (w : world) (dir d_name : string) (k : nat)
  (fs : files.t) (sz : Z) :
  let pathname := compose_pathname w dir d_name in
  let admitted :=
    (∃ sbuf, stat w pathname = Some sbuf
             ∧ st_mode sbuf = S_IFREG ∧ 40 < st_size sbuf)
    ∧ dot_pcap_suffix d_name in
  (candidate w dir d_name = true ↔ admitted)
  ∧ (¬ admitted → scan_entry w dir k d_name fs sz = Done (Some (fs, sz)))
  ∧ (admitted →
     ∃ sbuf,
       stat w pathname = Some sbuf
       ∧ scan_entry w dir k d_name fs sz
         = match get_first_timestamp w (on_probe w k) pathname with
           | Some timestamp =>
               '(ok, files) ← files.add (on_add w (files._M_used fs)) fs
                                pathname (wrap64 (st_size sbuf)) timestamp;
               if ok : bool then
                 Done (Some (files,
                             wrap64 (sz + wrap64 (st_size sbuf - 24))))
               else Done None
           | None => Done (Some (fs, sz))
           end).
Proof.
  intros pathname admitted.
  assert (candidate w dir d_name = true ↔ admitted) as Hiff.
  { unfold candidate, regular_and_large, admitted. rewrite <- pcap_name_spec.
    fold pathname.
    destruct (stat w pathname) as [sbuf|] eqn:Hstat.
    - change (to_off_t pcap.minimum_size) with 40.
      destruct (S_ISREG (st_mode sbuf)) eqn:Hreg,
               (st_size sbuf >? 40) eqn:Hsize; simpl.
      + split; [|tauto]. intros Hname. split; [|done].
        exists sbuf. repeat split; [|lia].
        by destruct (st_mode sbuf).
      + split; [done|]. intros [(sb & [= <-] & _ & Hlt) _]. lia.
      + split; [done|]. intros [(sb & [= <-] & Hty & _) _].
        by rewrite Hty in Hreg.
      + split; [done|]. intros [(sb & [= <-] & Hty & _) _].
        by rewrite Hty in Hreg.
    - split; [done|]. by intros [(sb & ? & _) _]. }
  split; [done|]. rewrite scan_entry_candidate. fold pathname. split.
  - intros Hno. destruct (candidate w dir d_name); [|done].
    destruct Hno. by apply Hiff.
  - intros Hyes. pose proof (proj2 Hiff Hyes) as ->.
    destruct Hyes as [(sbuf & Hstat & _) _].
    exists sbuf. by rewrite Hstat.
Qed.

(** In [two_captures]: A is stored with its path, size and time stamp; the
    text file and the file of 30 bytes are passed over; the capture with an
    unknown magic passes the scanner and is dropped by the probe. *)
Example scan_entry_on_two_captures :
  scan_entry two_captures "caps" 2 "A.pcap" files.empty 24
    = Done (Some (files_with_A, 80))
  ∧ scan_entry two_captures "caps" 3 "README.txt" files_with_A 80
    = Done (Some (files_with_A, 80))
  ∧ scan_entry two_captures "caps" 6 "S.pcap" files_with_A 80
    = Done (Some (files_with_A, 80))
  ∧ candidate two_captures "caps" "corrupt.pcap" = true
  ∧ scan_entry two_captures "caps" 5 "corrupt.pcap" files_with_A 80
    = Done (Some (files_with_A, 80)).
Proof. repeat split; vm_compute; reflexivity. Qed.

(** The statement on two entries of [two_captures]: the test passes on
    [B.PCAP], so its name has the suffix; the file of 30 bytes fails the
    test, so the loop body passes it over. *)
Lemma scanner_admits_iff_witness :
  dot_pcap_suffix "B.PCAP"
  ∧ scan_entry two_captures "caps" 6 "S.pcap" files_with_A 80
    = Done (Some (files_with_A, 80)).
Proof.
  split.
  - apply (proj1 (proj1 (scanner_admits_iff two_captures "caps" "B.PCAP" 4
                           files_with_A 80))).
    vm_compute. reflexivity.
  - apply (proj1 (proj2 (scanner_admits_iff two_captures "caps" "S.pcap" 6
                           files_with_A 80))).
    intros [(sbuf & Hstat & _ & Hlt) _]. vm_compute in Hstat.
    injection Hstat as <-. simpl in Hlt. lia.
Defined.

(** ** The header probe (C4) *)

Lemma byte_val_bound b : 0 <= byte_val b < 256.
Proof. unfold byte_val. pose proof (Byte.to_N_bounded b). lia. Qed.

Lemma le_value_bound bs : 0 <= le_value bs < 256 ^ Z.of_nat (length bs).
Proof.
  induction bs as [|b bs IH]; simpl length; simpl le_value; [lia|].
  rewrite Nat2Z.inj_succ, Z.pow_succ_r by lia.
  pose proof (byte_val_bound b). lia.
Qed.

Lemma field_bound e buf off width :
  0 <= field e buf off width < 256 ^ Z.of_nat width.
Proof.
  unfold field, load.
  set (bs := take width (drop off buf)).
  assert (length bs ≤ width)%nat as Hlen by (subst bs; rewrite length_take; lia).
  assert (256 ^ Z.of_nat (length bs) <= 256 ^ Z.of_nat width)
    by (apply Z.pow_le_mono_r; lia).
  destruct e.
  - pose proof (le_value_bound bs). lia.
  - pose proof (le_value_bound (reverse bs)) as Hb.
    rewrite length_reverse in Hb. lia.
Qed.

Lemma wrap64_small z : 0 <= z < 2 ^ 64 → wrap64 z = z.
Proof. intros. unfold wrap64. by apply Z.mod_small. Qed.

(** When [read] returns the 40 bytes asked for, the buffer holds the first
    40 bytes of the file. *)
Lemma sys_read_full r fd buf :
  sys_read r fd pcap.minimum_size = (pcap.minimum_size, buf) →
  buf = take 40 (i_data fd) ∧ length buf = 40%nat.
Proof.
  unfold sys_read. change pcap.minimum_size with 40.
  destruct r as [k|], (i_type fd); try discriminate.
  intros [= Hlen <-]. rewrite length_take in *.
  replace (k `min` Z.to_nat 40)%nat with 40%nat by lia.
  split; [done|lia].
Qed.

(** The fields of the two headers are the bytes of the buffer, in the
    order of the host. *)
Lemma byte_at_drop buf n i : byte_at (drop n buf) i = byte_at buf (n + i).
Proof. unfold byte_at. by rewrite lookup_drop. Qed.

Lemma field_u32 e buf off :
  (off + 4 ≤ length buf)%nat → field e buf off 4 = u32_at e buf off.
Proof.
  intros Hlen. unfold field, u32_at.
  assert (byte_at buf off = byte_at (drop off buf) 0) as ->
    by (rewrite byte_at_drop; f_equal; lia).
  rewrite <- !byte_at_drop.
  assert (4 ≤ length (drop off buf))%nat as Hl by (rewrite length_drop; lia).
  destruct (drop off buf) as [|a [|b [|c [|d rest]]]]; simpl in Hl; try lia.
  change (2 ^ 8) with 256. change (2 ^ 16) with 65536.
  change (2 ^ 24) with 16777216.
  destruct e; unfold byte_at; simpl; lia.
Qed.

Lemma field_u16 e buf off :
  (off + 2 ≤ length buf)%nat → field e buf off 2 = u16_at e buf off.
Proof.
  intros Hlen. unfold field, u16_at.
  assert (byte_at buf off = byte_at (drop off buf) 0) as ->
    by (rewrite byte_at_drop; f_equal; lia).
  rewrite <- !byte_at_drop.
  assert (2 ≤ length (drop off buf))%nat as Hl by (rewrite length_drop; lia).
  destruct (drop off buf) as [|a [|b rest]]; simpl in Hl; try lia.
  change (2 ^ 8) with 256.
  destruct e; unfold byte_at; simpl; lia.
Qed.

Lemma probe_accepts_decoded :
  ∀ (w : world) (r : probe_resp) (filename : string) (timestamp : Z),
    get_first_timestamp w r filename = Some timestamp ↔
    ∃ fd buf,
      sys_open w (probe_open r) filename = Some fd
      ∧ sys_read (probe_read r) fd 40 = (40, buf)
      ∧ buf = take 40 (i_data fd)
      ∧ (pcap.magic (pcap.as_file_header (byte_order w) buf) = 0xA1B2C3D4
         ∨ pcap.magic (pcap.as_file_header (byte_order w) buf) = 0xA1B23C4D)
      ∧ pcap.fh_version_major (pcap.as_file_header (byte_order w) buf) = 2
      ∧ pcap.fh_version_minor (pcap.as_file_header (byte_order w) buf) = 4
      ∧ timestamp =
          pcap.tv_sec (pcap.ts (pcap.as_pkthdr (byte_order w) (drop 24 buf)))
          * 1000000
          + pcap.tv_usec
              (pcap.ts (pcap.as_pkthdr (byte_order w) (drop 24 buf))).
Proof.
  intros w r filename timestamp. unfold get_first_timestamp.
  change pcap.minimum_size with 40.
  change (Z.to_nat pcap.sizeof_pcap_file_header) with 24%nat.
  change pcap.magic_microseconds with 0xA1B2C3D4.
  change pcap.magic_nanoseconds with 0xA1B23C4D.
  change pcap.version_major with 2. change pcap.version_minor with 4.
  destruct (sys_open w (probe_open r) filename) as [fd|];
    [|split; [done|by intros (? & ? & ? & _)]].
  destruct (sys_read (probe_read r) fd 40) as [n buf] eqn:Hread.
  set (fh := pcap.as_file_header (byte_order w) buf).
  set (ph := pcap.as_pkthdr (byte_order w) (drop 24 buf)).
  assert (0 <= pcap.tv_sec (pcap.ts ph) < 2 ^ 32) as Hsec
    by apply (field_bound _ _ _ 4).
  assert (0 <= pcap.tv_usec (pcap.ts ph) < 2 ^ 32) as Husec
    by apply (field_bound _ _ _ 4).
  assert (wrap64 (wrap64 (pcap.tv_sec (pcap.ts ph) * 1000000)
                  + pcap.tv_usec (pcap.ts ph))
          = pcap.tv_sec (pcap.ts ph) * 1000000 + pcap.tv_usec (pcap.ts ph))
    as Hts.
  { unfold wrap64. change (2 ^ 32) with 4294967296 in *.
    change (2 ^ 64) with 18446744073709551616.
    rewrite (Z.mod_small (_ * _)) by lia. apply Z.mod_small. lia. }
  rewrite Hts.
  destruct (n =? 40) eqn:Hn.
  + apply Z.eqb_eq in Hn. subst n.
    destruct (sys_read_full _ _ _ Hread) as [Hbuf _].
    destruct (((pcap.magic fh =? 0xA1B2C3D4) || (pcap.magic fh =? 0xA1B23C4D))
              && (pcap.fh_version_major fh =? 2)
              && (pcap.fh_version_minor fh =? 4)) eqn:Hok.
    * rewrite !andb_true_iff, orb_true_iff, !Z.eqb_eq in Hok.
      split.
      -- intros [= <-]. exists fd, buf. intuition.
      -- intros (fd' & buf' & [= <-] & Hrd & _ & _ & _ & _ & ->).
         rewrite Hread in Hrd. by injection Hrd as <-.
    * split; [done|].
      intros (fd' & buf' & [= <-] & Hrd & _ & Hm & Hmaj & Hmin & _).
      rewrite Hread in Hrd. injection Hrd as <-.
      rewrite <- not_true_iff_false in Hok. destruct Hok.
      rewrite !andb_true_iff, orb_true_iff, !Z.eqb_eq. done.
  + apply Z.eqb_neq in Hn. split; [done|].
    intros (fd' & buf' & [= <-] & Hrd & _).
    rewrite Hread in Hrd. by injection Hrd as ? _.
Qed.

(** C4. The probe accepts a file exactly when [open] succeeds, [read]
    returns the full first 40 bytes, the 32-bit integer at bytes 0-3 (in
    the byte order of the host) is one of the two known magics, and the
    16-bit integers at bytes 4-5 and 6-7 are 2 and 4; the time stamp is then
    the integer at bytes 24-27 (seconds) times 1,000,000 plus the integer at
    bytes 28-31 (sub-seconds) as it stands, whatever the magic.  A rejection
    leaves no trace: the scanner goes on with the same list, the same size
    and nothing written to standard error. *)
Theorem probe_accepts_iff :
  (∀ (w : world) (r : probe_resp) (filename : string) (timestamp : Z),
     get_first_timestamp w r filename = Some timestamp ↔
     ∃ fd buf,
       sys_open w (probe_open r) filename = Some fd
       ∧ sys_read (probe_read r) fd 40 = (40, buf)
       ∧ buf = take 40 (i_data fd)
       ∧ (u32_at (byte_order w) buf 0 = 0xA1B2C3D4
          ∨ u32_at (byte_order w) buf 0 = 0xA1B23C4D)
       ∧ u16_at (byte_order w) buf 4 = 2
       ∧ u16_at (byte_order w) buf 6 = 4
       ∧ timestamp = u32_at (byte_order w) buf 24 * 1000000
                     + u32_at (byte_order w) buf 28)
  ∧ (∀ (w : world) (dir : string) (k : nat) (d_name : string)
       (files : files.t) (filesize : Z),
       get_first_timestamp w (on_probe w k) (compose_pathname w dir d_name)
         = None →
       scan_entry w dir k d_name files filesize
         = Done (Some (files, filesize))).
Proof.
  split.
  - intros w r filename timestamp. rewrite probe_accepts_decoded.
    assert (∀ fd buf,
              sys_read (probe_read r) fd 40 = (40, buf) →
              pcap.magic (pcap.as_file_header (byte_order w) buf)
              = u32_at (byte_order w) buf 0
              ∧ pcap.fh_version_major (pcap.as_file_header (byte_order w) buf)
                = u16_at (byte_order w) buf 4
              ∧ pcap.fh_version_minor (pcap.as_file_header (byte_order w) buf)
                = u16_at (byte_order w) buf 6
              ∧ pcap.tv_sec (pcap.ts (pcap.as_pkthdr (byte_order w)
                                        (drop 24 buf)))
                = u32_at (byte_order w) buf 24
              ∧ pcap.tv_usec (pcap.ts (pcap.as_pkthdr (byte_order w)
                                         (drop 24 buf)))
                = u32_at (byte_order w) buf 28) as Hfields.
    { intros fd buf Hread.
      destruct (sys_read_full _ _ _ Hread) as [_ Hlen]. simpl.
      rewrite !field_u32, !field_u16 by (rewrite ?length_drop; lia).
      unfold u32_at. rewrite !byte_at_drop. done. }
    split; intros (fd & buf & Hopen & Hread & Hbuf & Hrest);
      exists fd, buf; destruct (Hfields fd buf Hread) as (H1 & H2 & H3 & H4 & H5);
      [rewrite H1, H2, H3, H4, H5 in Hrest
      |rewrite H1, H2, H3, H4, H5]; done.
  - intros w dir k d_name files filesize Hrej. unfold scan_entry.
    rewrite Hrej.
    destruct (regular_and_large w (compose_pathname w dir d_name)); [|done].
    by destruct (pcap_name d_name).
Qed.

(** The same capture written by a little-endian and by a big-endian host,
    byte by byte: each host accepts its own, with 0x64 = 100 seconds and
    0x0007a120 = 500000 microseconds, and rejects the other's, whose magic
    it reads as 0xd4c3b2a1. *)
Example probe_reads_the_bytes :
  get_first_timestamp (raw_captures LittleEndian)
    {| probe_open := true; probe_read := RData 64 |} "caps/le.pcap"
  = Some 100500000
  ∧ get_first_timestamp (raw_captures BigEndian)
      {| probe_open := true; probe_read := RData 64 |} "caps/be.pcap"
    = Some 100500000
  ∧ get_first_timestamp (raw_captures LittleEndian)
      {| probe_open := true; probe_read := RData 64 |} "caps/be.pcap"
    = None
  ∧ get_first_timestamp (raw_captures BigEndian)
      {| probe_open := true; probe_read := RData 64 |} "caps/le.pcap"
    = None
  ∧ u32_at BigEndian raw_le 0 = 0xd4c3b2a1
  ∧ u32_at LittleEndian raw_le 0 = 0xa1b2c3d4
  ∧ u16_at LittleEndian raw_le 4 = 2
  ∧ u16_at LittleEndian raw_le 6 = 4
  ∧ u32_at LittleEndian raw_le 24 = 100
  ∧ u32_at LittleEndian raw_le 28 = 500000.
Proof. repeat split; vm_compute; reflexivity. Qed.

(** The statement read from left to right on the little-endian capture:
    that the probe returns 100500000 tells what bytes 0-7 and 24-31 hold. *)
Lemma probe_accepts_iff_witness :
  ∃ fd buf,
    sys_open (raw_captures LittleEndian) true "caps/le.pcap" = Some fd
    ∧ sys_read (RData 64) fd 40 = (40, buf)
    ∧ buf = take 40 (i_data fd)
    ∧ (u32_at LittleEndian buf 0 = 0xA1B2C3D4
       ∨ u32_at LittleEndian buf 0 = 0xA1B23C4D)
    ∧ u16_at LittleEndian buf 4 = 2
    ∧ u16_at LittleEndian buf 6 = 4
    ∧ 100500000 = u32_at LittleEndian buf 24 * 1000000
                  + u32_at LittleEndian buf 28.
Proof.
  apply (proj1 (proj1 probe_accepts_iff (raw_captures LittleEndian)
                  {| probe_open := true; probe_read := RData 64 |}
                  "caps/le.pcap" 100500000)).
  vm_compute. reflexivity.
Defined.

(** ** The write loop (C3) *)

(** C3, as the code has it.  In one turn of the copy loop, with [ret] and
    [errno] what [write] returned: a positive [ret] advances the cursor by
    [ret], ending the copy with success when the count is reached; a
    negative [ret] with [EINTR] and a zero [ret] both leave the cursor where
    it is and call [write] again; a negative [ret] with any other [errno]
    ends the copy with failure. *)
Theorem copy_turn_cases (base : list byte) (to_copy : Z) (r : write_resp)
  (ptr written : Z) (outfd : ofile) :
  let res := sys_write r outfd (drop (Z.to_nat ptr) base)
               (wrap64 (to_copy - written)) in
  let ret := res.1.1 in
  let errno := res.1.2 in
  let outfd' := res.2 in
  (0 < ret →
     (wrap64 (written + ret) = to_copy
      ∧ copy_turn base to_copy r ptr written outfd = Return true outfd')
     ∨ (wrap64 (written + ret) ≠ to_copy
        ∧ copy_turn base to_copy r ptr written outfd
          = Again (ptr + ret) (wrap64 (written + ret)) outfd'))
  ∧ (ret < 0 → errno = EINTR →
     outfd' = outfd
     ∧ copy_turn base to_copy r ptr written outfd = Again ptr written outfd)
  ∧ (ret = 0 →
     outfd' = outfd
     ∧ copy_turn base to_copy r ptr written outfd = Again ptr written outfd)
  ∧ (ret < 0 → errno ≠ EINTR →
     copy_turn base to_copy r ptr written outfd = Return false outfd').
Proof.
  assert (∀ res, res = sys_write r outfd (drop (Z.to_nat ptr) base)
                         (wrap64 (to_copy - written)) →
          (res.1.1 <= 0 → res.2 = outfd) ∧ (res.1.1 < 0 → res.1.1 = -1))
    as Hsys.
  { intros res ->. destruct r as [k|e]; simpl; [|done].
    destruct (take _ _); simpl; [done|lia]. }
  unfold copy_turn.
  destruct (sys_write r outfd (drop (Z.to_nat ptr) base)
              (wrap64 (to_copy - written))) as [[ret errno] outfd'] eqn:Hw.
  destruct (Hsys _ eq_refl) as [Hsame Hneg]. simpl in *.
  destruct (ret >? 0) eqn:Hpos;
    [apply Z.gtb_gt in Hpos | rewrite <- not_true_iff_false, Z.gtb_gt in Hpos].
  - repeat split; try lia. intros _.
    destruct (wrap64 (written + ret) =? to_copy) eqn:Hdone.
    + left. by apply Z.eqb_eq in Hdone.
    + right. by apply Z.eqb_neq in Hdone.
  - rewrite Hsame by lia.
    destruct (ret <? 0) eqn:Hlt;
      [apply Z.ltb_lt in Hlt | apply Z.ltb_ge in Hlt].
    + destruct (errno =? EINTR) eqn:He;
        [apply Z.eqb_eq in He | apply Z.eqb_neq in He]; simpl;
        repeat split; intros; try done; lia.
    + repeat split; intros; try done; lia.
Qed.

(** A zero return is not a failure.  Copying B (72 bytes) into a pre-sized
    output while the first [write] returns 0: the return is non-positive and
    is not an [EINTR], yet the turn does not end the copy, and the copy goes
    on to succeed. *)
Lemma zero_return_is_retried :
  let fd0 := {| o_data := replicate 72 x00%byte; o_pos := 0 |} in
  let res := sys_write (WAccept 0) fd0 file_B 72 in
  res.1.1 <= 0
  ∧ ¬ (res.1.1 < 0 ∧ res.1.2 = EINTR)
  ∧ copy_turn file_B 72 (WAccept 0) 0 0 fd0 ≠ Return false res.2
  ∧ copy_file two_captures
      {| copy_open := true; copy_mmap := true;
         copy_writes := [WAccept 0; WAccept 1024] |}
      fd0 "caps/B.PCAP" 72 0
    = Done (true, {| o_data := file_B; o_pos := 72 |}).
Proof.
  repeat split.
  - vm_compute. discriminate.
  - vm_compute. intros [Hlt _]. discriminate.
  - vm_compute. discriminate.
Qed.

(** ** The list of files (C9, C10) *)

Lemma allocate_spec r f :
  files_wf f →
  let res := files.allocate r f in
  files_wf res.2
  ∧ files._M_used res.2 = files._M_used f
  ∧ files.entries res.2 = files.entries f
  ∧ (res.1 = true → files._M_used res.2 < files._M_size res.2)
  ∧ (res.1 = false → res.2 = f).
Proof.
  intros (Hlen & Hused & Hmax). unfold files.allocate.
  unfold PTRDIFF_MAX in *. change pcap.sizeof_file with 24 in *.
  unfold files_wf, PTRDIFF_MAX. change pcap.sizeof_file with 24.
  destruct (files._M_used f <? files._M_size f) eqn:Hroom; simpl.
  { apply Z.ltb_lt in Hroom. repeat split; try done; lia. }
  apply Z.ltb_ge in Hroom.
  set (size := if files._M_size f >? 0 then wrap64 (files._M_size f * 2)
               else 1024).
  assert (files._M_size f < size ∧ size * 24 < 2 ^ 64) as [Hgrow Hfit].
  { subst size. destruct (files._M_size f >? 0) eqn:Hpos.
    - apply Z.gtb_gt in Hpos. rewrite wrap64_small; lia.
    - rewrite <- not_true_iff_false, Z.gtb_gt in Hpos. lia. }
  rewrite (wrap64_small (size * 24)) by lia.
  unfold realloc. change pcap.sizeof_file with 24. unfold PTRDIFF_MAX.
  destruct (realloc_ok r && (size * 24 <=? 2 ^ 63 - 1)) eqn:Hok; simpl;
    [|repeat split; try done; lia].
  apply andb_true_iff in Hok as [_ Hok%Z.leb_le].
  rewrite Z.div_mul by done.
  repeat split; simpl; try lia.
  - rewrite length_resize. lia.
  - unfold files.entries; simpl. rewrite take_resize_le, resize_le by lia.
    done.
Qed.

Lemma add_spec r f name size ts :
  files_wf f →
  ∃ ok f',
    files.add r f name size ts = Done (ok, f')
    ∧ files_wf f'
    ∧ (ok = false ↔ (files.allocate r f).1 = false ∨ strdup_ok r = false)
    ∧ if ok
      then files.entries f'
           = files.entries f ++ [{| pcap.filename := name;
                                    pcap.filesize := size;
                                    pcap.timestamp := ts |}]
           ∧ files._M_used f' = files._M_used f + 1
      else files.entries f' = files.entries f
           ∧ files._M_used f' = files._M_used f.
Proof.
  intros Hwf. unfold files.add.
  destruct (allocate_spec r f Hwf) as (Hwf1 & Hused & Hent & Hroom & Hsame).
  destruct (files.allocate r f) as [ok f1]; simpl in *.
  destruct ok; [|exists false, f1; intuition].
  destruct (strdup_ok r); [|exists false, f1; intuition].
  destruct Hwf1 as (Hlen & Hu & Hmax). specialize (Hroom eq_refl).
  unfold PTRDIFF_MAX in Hmax. change pcap.sizeof_file with 24 in Hmax.
  destruct (decide (Z.to_nat (files._M_used f1)
                    < length (files._M_files f1))%nat) as [Hin|]; [|lia].
  eexists true, _. split; [done|].
  rewrite wrap64_small by lia.
  repeat split; simpl; try (rewrite ?length_insert; lia);
    try (intuition discriminate).
  - unfold files.entries in *; simpl.
    replace (Z.to_nat (files._M_used f1 + 1))
      with (S (Z.to_nat (files._M_used f1))) by lia.
    rewrite (take_S_r _ _ {| pcap.filename := name; pcap.filesize := size;
                             pcap.timestamp := ts |}).
    + rewrite take_insert_ge by lia. rewrite Hent. by rewrite <- Hused.
    + by apply list_lookup_insert_eq.
Qed.

Lemma compare_total : cmp_total files.compare.
Proof.
  intros a b. unfold files.compare.
  destruct (pcap.timestamp a <? pcap.timestamp b) eqn:H1; [lia|].
  destruct (pcap.timestamp b <? pcap.timestamp a) eqn:H2; [lia|].
  apply Z.ltb_ge in H1, H2.
  destruct (pcap.timestamp a >? pcap.timestamp b) eqn:H3; [|lia].
  apply Z.gtb_gt in H3. lia.
Qed.

Lemma compare_le a b :
  files.compare a b <= 0 ↔ pcap.timestamp a <= pcap.timestamp b.
Proof.
  unfold files.compare.
  destruct (pcap.timestamp a <? pcap.timestamp b) eqn:H1.
  { apply Z.ltb_lt in H1. lia. }
  apply Z.ltb_ge in H1.
  destruct (pcap.timestamp a >? pcap.timestamp b) eqn:H2.
  - apply Z.gtb_gt in H2. lia.
  - rewrite <- not_true_iff_false, Z.gtb_gt in H2. lia.
Qed.

Lemma sort_spec `{Libc} f :
  files_wf f →
  files_wf (files.sort f)
  ∧ files.entries (files.sort f) = qsort files.compare (files.entries f).
Proof.
  intros (Hlen & Hused & Hmax).
  assert (length (qsort files.compare (files.entries f))
          = Z.to_nat (files._M_used f)) as Hq.
  { rewrite (Permutation_length (qsort_permutation _ _ _)).
    unfold files.entries. rewrite length_take. lia. }
  unfold files.entries in *. split.
  - repeat split; simpl; try lia.
    rewrite length_app, Hq, length_drop. lia.
  - simpl. by rewrite take_app_length'.
Qed.

Lemma reach_wf `{Libc} f l : reach f l → files_wf f ∧ files.entries f = l.
Proof.
  induction 1 as [|f l r name size ts f' _ [IHwf IHl] Hadd
                  |f l r name size ts f' _ [IHwf IHl] Hadd
                  |f l _ [IHwf IHl]].
  - split; [|done]. unfold files_wf, PTRDIFF_MAX; simpl. lia.
  - destruct (add_spec r f name size ts IHwf) as (ok & f0 & Heq & Hwf & _ & Hres).
    rewrite Hadd in Heq. injection Heq as <- <-.
    destruct Hres as [-> _]. by rewrite IHl.
  - destruct (add_spec r f name size ts IHwf) as (ok & f0 & Heq & Hwf & _ & Hres).
    rewrite Hadd in Heq. injection Heq as <- <-.
    destruct Hres as [-> _]. done.
  - destruct (sort_spec f IHwf) as [Hwf ->]. by rewrite IHl.
Qed.

Lemma reach_files_with_A `{Libc} : reach files_with_A [entry_A].
Proof.
  apply (reach_add_true files.empty [] calm_alloc "caps/A.pcap" 80 100500000);
    [constructor|].
  vm_compute. reflexivity.
Qed.

Lemma deref_entry f i e :
  files.entries f !! i = Some e → files.deref f (Z.of_nat i) = Done e.
Proof.
  unfold files.entries, files.deref. intros [Hi He]%lookup_take_Some.
  destruct (0 <=? Z.of_nat i) eqn:Hnn; [|apply Z.leb_gt in Hnn; lia].
  by rewrite Nat2Z.id, Hi.
Qed.

Lemma entries_length f : files_wf f →
  Z.of_nat (length (files.entries f)) = files._M_used f.
Proof.
  intros (Hlen & Hused & _). unfold files.entries. rewrite length_take. lia.
Qed.

(** C9. In every state of the list, for an index below the number of
    entries stored, [get] returns the address of the cell with that index
    and the cell holds the entry of that index; for any other index [get]
    returns [nullptr].  An address [get] returns lies below [_M_used], inside
    the allocated block. *)
Theorem get_within_entries `{Libc} (f : files.t) (l : list pcap.file)
  (idx : Z) :
  reach f l →
  0 <= idx →
  (idx < Z.of_nat (length l) →
     ∃ e, l !! Z.to_nat idx = Some e
          ∧ files.get f idx = Some idx
          ∧ files.deref f idx = Done e)
  ∧ (Z.of_nat (length l) <= idx → files.get f idx = None)
  ∧ (∀ p, files.get f idx = Some p →
       p = idx
       ∧ p < files._M_used f
       ∧ files._M_used f <= Z.of_nat (length (files._M_files f))).
Proof.
  intros [Hwf Hent]%reach_wf Hidx.
  pose proof (entries_length f Hwf) as Hlen. rewrite Hent in Hlen.
  destruct Hwf as (Hcap & Hused & _). unfold files.get.
  split; [|split].
  - intros Hlt.
    destruct (lookup_lt_is_Some_2 l (Z.to_nat idx) ltac:(lia)) as [e He].
    exists e. split; [done|]. split.
    + destruct (idx <? files._M_used f) eqn:Hb; [done|].
      apply Z.ltb_ge in Hb. lia.
    + rewrite <- Hent in He. apply deref_entry in He.
      by rewrite Z2Nat.id in He.
  - intros Hge. destruct (idx <? files._M_used f) eqn:Hb; [|done].
    apply Z.ltb_lt in Hb. lia.
  - intros p. destruct (idx <? files._M_used f) eqn:Hb; intros [= <-].
    apply Z.ltb_lt in Hb. lia.
Qed.

(** The statement for index 0 of the list that holds A alone. *)
Lemma get_within_entries_witness :
  (0 < Z.of_nat (length [entry_A]) →
     ∃ e, [entry_A] !! Z.to_nat 0 = Some e
          ∧ files.get files_with_A 0 = Some 0
          ∧ files.deref files_with_A 0 = Done e)
  ∧ (Z.of_nat (length [entry_A]) <= 0 → files.get files_with_A 0 = None)
  ∧ (∀ p, files.get files_with_A 0 = Some p →
       p = 0
       ∧ p < files._M_used files_with_A
       ∧ files._M_used files_with_A
         <= Z.of_nat (length (files._M_files files_with_A))).
Proof.
  apply (@get_within_entries reference_libc files_with_A [entry_A] 0).
  - apply reach_files_with_A.
  - lia.
Defined.



(** ** Copying one input *)

Lemma write_at_nonempty fd bs :
  bs ≠ [] →
  write_at fd bs = {| o_data := overwrite (o_data fd) (o_pos fd) bs;
                      o_pos := (o_pos fd + length bs)%nat |}.
Proof. by destruct bs. Qed.

Lemma write_at_app fd a b :
  write_at (write_at fd a) b = write_at fd (a ++ b).
Proof.
  destruct (decide (a = [])) as [->|Ha]; [done|].
  destruct (decide (b = [])) as [->|Hb]; [by rewrite app_nil_r|].
  rewrite !write_at_nonempty; try done; [|by destruct a].
  destruct fd as [data pos]. unfold overwrite; simpl.
  rewrite length_app. f_equal; [|lia].
  rewrite (app_assoc (resize pos _ data) a).
  rewrite resize_app by (rewrite length_app, length_resize; lia).
  rewrite (drop_app_add' _ _ (pos + length a))
    by (rewrite length_app, length_resize; lia).
  rewrite drop_drop, <- !app_assoc.
  by rewrite (Nat.add_assoc pos).
Qed.

Lemma take_length_take {A} (l : list A) m :
  take (length (take m l)) l = take m l.
Proof.
  rewrite length_take. destruct (decide (m ≤ length l)%nat).
  - by rewrite Nat.min_l.
  - rewrite Nat.min_r, !take_ge by lia. done.
Qed.

Lemma sys_write_accept k fd buf count :
  let n := ((k `min` Z.to_nat count) `min` length buf)%nat in
  sys_write (WAccept k) fd buf count
  = (Z.of_nat n, 0, write_at fd (take n buf)).
Proof.
  unfold sys_write. set (m := (k `min` Z.to_nat count)%nat). simpl.
  rewrite <- (length_take buf m), take_length_take.
  by destruct (take m buf) as [|b bs].
Qed.



(** ** The scan of the directory *)

Lemma body_sizes_app es e :
  body_sizes (es ++ [e])
  = body_sizes es + (pcap.filesize e - pcap.sizeof_pcap_file_header).
Proof. unfold body_sizes. induction es as [|x es IH]; simpl; lia. Qed.

Lemma wrap64_add_sub a s :
  wrap64 (wrap64 a + wrap64 (s - 24)) = wrap64 (a + (wrap64 s - 24)).
Proof.
  unfold wrap64.
  rewrite Zplus_mod_idemp_l, Zplus_mod_idemp_r.
  rewrite <- (Zplus_mod_idemp_r (s mod 2 ^ 64 - 24)).
  rewrite Zminus_mod_idemp_l. by rewrite Zplus_mod_idemp_r.
Qed.

Lemma regular_and_large_Some w pathname sbuf :
  regular_and_large w pathname = Some sbuf →
  ∃ i, nodes w !! pathname = Some i ∧ i_type i = S_IFREG
       ∧ st_size sbuf = Z.of_nat (length (i_data i))
       ∧ 40 < Z.of_nat (length (i_data i)).
Proof.
  unfold regular_and_large, stat.
  destruct (nodes w !! pathname) as [i|]; simpl; [|done].
  change (to_off_t pcap.minimum_size) with 40.
  destruct (S_ISREG (i_type i)) eqn:Hreg; simpl; [|done].
  destruct (Z.of_nat (length (i_data i)) >? 40) eqn:Hsize; [|done].
  intros [= <-]. exists i. simpl. apply Z.gtb_gt in Hsize.
  repeat split; [|lia]. by destruct (i_type i).
Qed.

Lemma scan_entry_inv w dir k d_name fs sz :
  scan_inv w fs sz →
  ∃ res, scan_entry w dir k d_name fs sz = Done res
         ∧ ∀ fs' sz', res = Some (fs', sz') → scan_inv w fs' sz'.
Proof.
  intros (Hwf & Hacc & Hsz). unfold scan_entry.
  set (pathname := compose_pathname w dir d_name).
  destruct (regular_and_large w pathname) as [sbuf|] eqn:Hreg;
    [|eexists; split; [done|]; by intros ? ? [= <- <-]].
  destruct (pcap_name d_name);
    [|eexists; split; [done|]; by intros ? ? [= <- <-]].
  destruct (get_first_timestamp w (on_probe w k) pathname) as [ts|];
    [|eexists; split; [done|]; by intros ? ? [= <- <-]].
  destruct (add_spec (on_add w (files._M_used fs)) fs pathname
              (wrap64 (st_size sbuf)) ts Hwf)
    as (ok & fs1 & -> & Hwf1 & _ & Hres).
  simpl. destruct ok; [|by eexists].
  eexists; split; [done|]. intros ? ? [= <- <-].
  destruct Hres as [Hent _].
  destruct (regular_and_large_Some _ _ _ Hreg) as (i & Hnode & Hty & Hst & Hbig).
  split; [done|]. rewrite Hent. split.
  - apply Forall_app. split; [done|]. constructor; [|done].
    exists i. simpl. by rewrite Hst.
  - rewrite body_sizes_app, Hsz. simpl.
    change pcap.sizeof_pcap_file_header with 24.
    rewrite wrap64_add_sub. f_equal. lia.
Qed.

Lemma scan_inv_holds w dir names :
  ∀ k fs sz,
    scan_inv w fs sz →
    ∃ res, scan w dir names k fs sz = Done res
           ∧ ∀ fs' sz', res = Some (fs', sz') → scan_inv w fs' sz'.
Proof.
  induction names as [|d_name names IH]; intros k fs sz Hinv; simpl.
  - eexists; split; [done|]. by intros ? ? [= <- <-].
  - destruct (scan_entry_inv w dir k d_name fs sz Hinv) as (res & -> & Hres).
    simpl. destruct res as [[fs1 sz1]|]; [|by eexists].
    apply IH. by apply Hres.
Qed.

Lemma scan_directory_inv w dir :
  ∃ res, scan_directory w dir = Done res
         ∧ ∀ fs sz, res = Some (fs, sz) → scan_inv w fs sz.
Proof.
  apply scan_inv_holds. by repeat split.
Qed.

(** ** The merge *)

Lemma accepted_contents w e :
  world_ok w → accepted w e →
  pcap.filesize e = Z.of_nat (length (contents w (pcap.filename e)))
  ∧ 40 < pcap.filesize e < 2 ^ 63.
Proof.
  intros Hok (i & Hnode & _ & Hsize & Hbig). unfold contents.
  rewrite Hnode. specialize (Hok _ _ Hnode).
  rewrite wrap64_small in Hsize by lia. lia.
Qed.











(** ** The creation of the output *)

Lemma truncated_lookup_ne (m : gmap string inode) p q :
  q ≠ p → truncated m p !! q = m !! q.
Proof.
  intros Hne. unfold truncated.
  destruct (m !! p) as [i|]; [destruct (i_type i)|];
    by rewrite ?lookup_insert_ne.
Qed.

Lemma truncated_lookup_eq (m : gmap string inode) p i :
  truncated m p !! p = Some i → i_type i ≠ S_IFREG ∨ i_data i = [].
Proof.
  unfold truncated. destruct (m !! p) as [j|] eqn:Hp.
  - destruct (i_type j) eqn:Hty; rewrite ?lookup_insert_eq, ?Hp;
      intros [= <-]; rewrite ?Hty; auto.
  - rewrite lookup_insert_eq. intros [= <-]. by right.
Qed.

Lemma truncated_lookup (m : gmap string inode) p q i :
  truncated m p !! q = Some i →
  m !! q = Some i ∨ (q = p ∧ i_data i = []).
Proof.
  destruct (decide (q = p)) as [->|Hne];
    [|rewrite truncated_lookup_ne by done; by left].
  unfold truncated. destruct (m !! p) as [j|] eqn:Hp.
  - destruct (i_type j); rewrite ?lookup_insert_eq, ?Hp;
      intros [= <-]; auto.
  - rewrite lookup_insert_eq. intros [= <-]. by right.
Qed.

Lemma world_ok_created w p : world_ok w → world_ok (created w p).
Proof.
  intros Hok path i Hl. simpl in Hl.
  apply truncated_lookup in Hl as [Hl|[_ ->]]; [by eapply Hok|done].
Qed.

Lemma patient_created w p : patient w → patient (created w p).
Proof.
  intros Hpat i. destruct (Hpat i) as (rs & k & Hrs & Hk).
  exists rs, k. split; [done|]. intros path nd Hl. simpl in Hl.
  apply truncated_lookup in Hl as [Hl|[_ ->]]; [by eapply Hk|simpl; lia].
Qed.

(** No stored entry names the output: when the scan runs the output is an
    empty file, too small to be accepted.  The files the entries name are
    as they were before the output was created. *)
Lemma accepted_created w p e :
  accepted (created w p) e →
  pcap.filename e ≠ p
  ∧ accepted w e
  ∧ contents (created w p) (pcap.filename e) = contents w (pcap.filename e).
Proof.
  intros (i & Hnode & Hty & Hsize & Hbig). simpl in Hnode.
  assert (pcap.filename e ≠ p) as Hne.
  { intros Heq. rewrite Heq in Hnode.
    apply truncated_lookup_eq in Hnode as [Hno|Hempty]; [done|].
    rewrite Hempty in Hbig. simpl in Hbig. lia. }
  rewrite truncated_lookup_ne in Hnode by done.
  split; [done|]. split; [by exists i|].
  unfold contents. simpl. by rewrite truncated_lookup_ne.
Qed.

Lemma merged_created w p es :
  Forall (accepted (created w p)) es →
  Forall (accepted w) es
  ∧ Forall (λ e, pcap.filename e ≠ p) es
  ∧ merged (created w p) es = merged w es
  ∧ input_sizes (created w p) es = input_sizes w es.
Proof.
  intros Hacc.
  assert (Forall (λ e, pcap.filename e ≠ p ∧ accepted w e
                       ∧ contents (created w p) (pcap.filename e)
                         = contents w (pcap.filename e)) es) as Hall
    by (eapply Forall_impl; [done|apply accepted_created]).
  clear Hacc. split; [|split; [|split]].
  - eapply Forall_impl; [done|]. by intros e (_ & ? & _).
  - eapply Forall_impl; [done|]. by intros e (? & _).
  - destruct Hall as [|e es (_ & _ & He) Hes]; [done|]. simpl. rewrite He.
    f_equal. induction Hes as [|x xs (_ & _ & Hx) _ IH]; [done|].
    csimpl. unfold body at 1 3. by rewrite Hx, IH.
  - unfold input_sizes.
    induction Hall as [|e es (_ & _ & He) _ IH]; [done|].
    simpl. by rewrite He, IH.
Qed.

(** So the copies never read the file the writes fill: the inputs are
    files the run does not change. *)
Lemma scan_never_stores_the_output w dir outp fs sz :
  scan_directory (created w outp) dir = Done (Some (fs, sz)) →
  Forall (λ e, pcap.filename e ≠ outp) (files.entries fs).
Proof.
  intros Hscan.
  destruct (scan_directory_inv (created w outp) dir) as (res & Hres & Hinv).
  rewrite Hscan in Hres. injection Hres as <-.
  destruct (Hinv fs sz eq_refl) as (_ & Hacc & _).
  by destruct (merged_created w outp _ Hacc) as (_ & ? & _).
Qed.

Local Arguments copy_all : simpl never.
Local Arguments files.sort : simpl never.
Local Arguments scan_directory : simpl never.




Lemma world_ok_two_captures : world_ok two_captures.
Proof.
  intros path i Hl. simpl in Hl.
  repeat (apply lookup_insert_Some in Hl as [[_ <-]|[_ Hl]];
          [vm_compute; reflexivity|]).
  by rewrite lookup_empty in Hl.
Qed.


(** ** The order of the inputs (C2) *)

Lemma Sorted_weaken {A} (R R' : A → A → Prop) l :
  (∀ a b, R a b → R' a b) → Sorted R l → Sorted R' l.
Proof.
  intros HR. induction 1 as [|a l _ IH Hhd]; constructor; [done|].
  destruct Hhd; constructor. by apply HR.
Qed.







(** ** One input, no input (C8, C7) *)




(** C7. When no input is accepted and the output is created, the directory
    opened and the pre-sizing granted, the run returns 0 without a
    diagnostic; the output was pre-sized to 24 bytes, the copy loop ends at
    once without touching the descriptor, and the file is 24 zero bytes.
    The scan is the one the run makes, after the output is created. *)
Theorem no_input_gives_24_zero_bytes `{Libc} (w : world)
  (prog dir outp : string) (sbuf : stat_buf) (fs : files.t) (sz : Z) :
  stat w dir = Some sbuf →
  st_mode sbuf = S_IFDIR →
  create_ok w = true →
  opendir_ok w = true →
  ftruncate_ok w = true →
  scan_directory (created w outp) dir = Done (Some (fs, sz)) →
  files.entries fs = [] →
  main w [prog; dir; outp]
    = Done {| status := 0; stderr := [];
              output := Written (replicate 24 x00%byte) |}
  ∧ sz = 24
  ∧ ∀ fd, copy_all (created w outp) outp (files.sort fs)
            (S (Z.to_nat (files._M_used (files.sort fs)))) 0 fd
          = Done (inl fd).
Proof.
  intros Hstat Hdir Hcreate Hopen Htrunc Hscan Hnone.
  destruct (scan_directory_inv (created w outp) dir) as (res & Hscan' & Hinv).
  rewrite Hscan in Hscan'. injection Hscan' as <-.
  destruct (Hinv fs sz eq_refl) as (Hwf & _ & Hsz).
  pose proof (entries_length fs Hwf) as Hused.
  rewrite Hnone in Hused, Hsz. simpl in Hused, Hsz.
  assert (sz = 24) as -> by (rewrite Hsz; done).
  assert (∀ fd, copy_all (created w outp) outp (files.sort fs)
                  (S (Z.to_nat (files._M_used (files.sort fs)))) 0 fd
                = Done (inl fd)) as Hcopy.
  { intros fd. unfold copy_all, files.get, files.sort; simpl.
    by rewrite <- Hused. }
  split; [|done].
  unfold main. rewrite Hstat, Hdir. simpl.
  unfold sys_creat. rewrite Hcreate.
  change (opendir_ok (created w outp)) with (opendir_ok w).
  rewrite Hopen, Hscan. simpl.
  unfold sys_ftruncate.
  change (ftruncate_ok (created w outp)) with (ftruncate_ok w).
  rewrite Htrunc. simpl.
  by rewrite Hcopy.
Qed.

(** The statement for the run on [no_capture]. *)
Lemma no_input_gives_24_zero_bytes_witness :
  @main reference_libc no_capture ["mergecap"; "caps"; "out.pcap"]
    = Done {| status := 0; stderr := [];
              output := Written (replicate 24 x00%byte) |}
  ∧ 24 = 24
  ∧ ∀ fd, copy_all (created no_capture "out.pcap") "out.pcap"
            (@files.sort reference_libc files.empty)
            (S (Z.to_nat (files._M_used
                            (@files.sort reference_libc files.empty)))) 0 fd
          = Done (inl fd).
Proof.
  apply (@no_input_gives_24_zero_bytes reference_libc no_capture
           "mergecap" "caps" "out.pcap"
           {| st_mode := S_IFDIR; st_size := 0 |} files.empty 24);
    reflexivity.
Defined.

(** ** Failures after the output is created (C6) *)

(** C6. Once the output file has been created, a run ends in one of two
    ways.  Either it returns 0, with nothing on standard error and the
    output left in place, and then the directory was opened, the scan
    completed, the pre-sizing succeeded and every copy succeeded.  Or it
    returns a non-zero value with the output path unlinked and one
    diagnostic, the one of the failure that occurred: the directory could
    not be opened, an allocation failed during the scan, the pre-sizing
    failed, or a copy failed.  The scan, the pre-sizing and the copies run
    on the file system [w'] that the creation of the output leaves. *)
Theorem failure_unlinks_output `{Libc} (w : world) (prog dir outp : string)
  (sbuf : stat_buf) (r : result) :
  stat w dir = Some sbuf →
  st_mode sbuf = S_IFDIR →
  create_ok w = true →
  main w [prog; dir; outp] = Done r →
  let w' := created w outp in
  let fd0 := {| o_data := []; o_pos := 0 |} in
  let turns := λ fs, S (Z.to_nat (files._M_used (files.sort fs))) in
  (status r = 0 ∧ stderr r = [] ∧ opendir_ok w = true
   ∧ ∃ fs sz fd fd',
       scan_directory w' dir = Done (Some (fs, sz))
       ∧ sys_ftruncate w' fd0 sz = Some fd
       ∧ copy_all w' outp (files.sort fs) (turns fs) 0 fd = Done (inl fd')
       ∧ output r = Written (o_data fd'))
  ∨ (status r ≠ 0 ∧ output r = Unlinked
     ∧ ((opendir_ok w = false ∧ stderr r = [ErrorOpeningDirectory dir])
        ∨ (opendir_ok w = true ∧ scan_directory w' dir = Done None
           ∧ stderr r = [ErrorAllocatingMemory])
        ∨ (∃ fs sz,
             opendir_ok w = true
             ∧ scan_directory w' dir = Done (Some (fs, sz))
             ∧ sys_ftruncate w' fd0 sz = None
             ∧ stderr r = [ErrorTruncating outp sz])
        ∨ (∃ fs sz fd d,
             opendir_ok w = true
             ∧ scan_directory w' dir = Done (Some (fs, sz))
             ∧ sys_ftruncate w' fd0 sz = Some fd
             ∧ copy_all w' outp (files.sort fs) (turns fs) 0 fd = Done (inr d)
             ∧ stderr r = [d]))).
Proof.
  intros Hstat Hdir Hcreate. unfold main, failure.
  rewrite Hstat, Hdir. simpl. unfold sys_creat. rewrite Hcreate.
  change (opendir_ok (created w outp)) with (opendir_ok w).
  destruct (opendir_ok w).
  2: { intros [= <-]; cbv zeta. right. simpl. repeat split; [done|]. by left. }
  destruct (scan_directory (created w outp) dir) as [[[fs sz]|]| |] eqn:Hscan; simpl;
    try done.
  2: { intros [= <-]; cbv zeta. right. simpl. repeat split; [done|].
       right. by left. }
  destruct (sys_ftruncate _ _ sz) as [fd|] eqn:Htr.
  2: { intros [= <-]; cbv zeta. right. simpl. repeat split; [done|].
       right. right. left. by exists fs, sz. }
  match goal with
  | |- context [copy_all ?a ?b ?c ?n ?i ?o] =>
      destruct (copy_all a b c n i o) as [[fd'|d]| |] eqn:Hcopy
  end; simpl; try done.
  - intros [= <-]; cbv zeta. left. simpl. repeat split. by exists fs, sz, fd, fd'.
  - intros [= <-]; cbv zeta. right. simpl. repeat split; [done|].
    right. right. right. by exists fs, sz, fd, d.
Qed.

(** The statement for the run on [disk_full]. *)
Lemma failure_unlinks_output_witness :
  let w := disk_full in
  let w' := created w "out.pcap" in
  let r := failure (ErrorCopying 56 "caps/A.pcap" "out.pcap") Unlinked in
  let fd0 := {| o_data := []; o_pos := 0 |} in
  let turns := λ fs,
    S (Z.to_nat (files._M_used (@files.sort reference_libc fs))) in
  (status r = 0 ∧ stderr r = [] ∧ opendir_ok w = true
   ∧ ∃ fs sz fd fd',
       scan_directory w' "caps" = Done (Some (fs, sz))
       ∧ sys_ftruncate w' fd0 sz = Some fd
       ∧ copy_all w' "out.pcap" (@files.sort reference_libc fs) (turns fs) 0 fd
         = Done (inl fd')
       ∧ output r = Written (o_data fd'))
  ∨ (status r ≠ 0 ∧ output r = Unlinked
     ∧ ((opendir_ok w = false ∧ stderr r = [ErrorOpeningDirectory "caps"])
        ∨ (opendir_ok w = true ∧ scan_directory w' "caps" = Done None
           ∧ stderr r = [ErrorAllocatingMemory])
        ∨ (∃ fs sz,
             opendir_ok w = true
             ∧ scan_directory w' "caps" = Done (Some (fs, sz))
             ∧ sys_ftruncate w' fd0 sz = None
             ∧ stderr r = [ErrorTruncating "out.pcap" sz])
        ∨ (∃ fs sz fd d,
             opendir_ok w = true
             ∧ scan_directory w' "caps" = Done (Some (fs, sz))
             ∧ sys_ftruncate w' fd0 sz = Some fd
             ∧ copy_all w' "out.pcap" (@files.sort reference_libc fs)
                 (turns fs) 0 fd = Done (inr d)
             ∧ stderr r = [d]))).
Proof.
  apply (@failure_unlinks_output reference_libc disk_full
           "mergecap" "caps" "out.pcap"
           {| st_mode := S_IFDIR; st_size := 0 |}).
  - reflexivity.
  - reflexivity.
  - reflexivity.
  - vm_compute. reflexivity.
Defined.

(** ** Termination *)

(** The write loop returns once a [write] takes all that is left. *)
Lemma write_loop_total base to_copy k rs :
  to_copy <= Z.of_nat k →
  ∀ ptr written fd,
    0 <= ptr → 0 <= written < to_copy → to_copy < 2 ^ 64 →
    ptr + (to_copy - written) = Z.of_nat (length base) →
    ∃ res, write_loop base to_copy (rs ++ [WAccept k]) ptr written fd
           = Done res.
Proof.
  intros Hk. induction rs as [|r rs IH]; intros ptr written fd Hptr Hw Hmax Hlen;
    simpl; unfold copy_turn; rewrite (wrap64_small (to_copy - written)) by lia.
  - rewrite sys_write_accept.
    set (n := ((k `min` Z.to_nat (to_copy - written))
                 `min` length (drop (Z.to_nat ptr) base))%nat).
    assert (Z.of_nat n = to_copy - written) as Hn
      by (subst n; rewrite length_drop; lia).
    rewrite Hn. replace (written + (to_copy - written)) with to_copy by lia.
    assert ((to_copy - written >? 0) = true) as -> by (apply Z.gtb_gt; lia).
    rewrite wrap64_small, Z.eqb_refl by lia. by eexists.
  - destruct r as [k'|e].
    + rewrite sys_write_accept.
      set (n := ((k' `min` Z.to_nat (to_copy - written))
                   `min` length (drop (Z.to_nat ptr) base))%nat).
      assert (Z.of_nat n <= to_copy - written) as Hn by lia.
      destruct (Z.of_nat n >? 0) eqn:Hpos.
      * rewrite wrap64_small by lia.
        destruct (written + Z.of_nat n =? to_copy) eqn:Hdone; [by eexists|].
        apply Z.eqb_neq in Hdone. apply IH; lia.
      * replace (Z.of_nat n <? 0) with false by (symmetry; apply Z.ltb_ge; lia).
        by apply IH.
    + simpl. destruct (e =? EINTR); simpl; [by apply IH | by eexists].
Qed.

Lemma copy_file_total w r fd filename filesize offset nd rs k :
  nodes w !! filename = Some nd →
  filesize = Z.of_nat (length (i_data nd)) →
  0 <= offset < filesize → filesize < 2 ^ 64 →
  copy_writes r = rs ++ [WAccept k] → (length (i_data nd) ≤ k)%nat →
  ∃ res, copy_file w r fd filename filesize offset = Done res.
Proof.
  intros Hnode Hsize Hoff Hmax Hrs Hk. unfold copy_file, sys_open.
  destruct (copy_open r); [|by eexists]. rewrite Hnode. unfold sys_mmap.
  destruct (i_type nd); try by eexists.
  destruct (copy_mmap r && negb (filesize =? 0)); [|by eexists].
  rewrite wrap64_small, Hrs by lia.
  apply write_loop_total; lia.
Qed.

Lemma copy_all_total w dst f :
  world_ok w → patient w → files_wf f →
  Forall (accepted w) (files.entries f) →
  ∀ turns i fd,
    0 <= i → (Z.to_nat (files._M_used f - i) < turns)%nat →
    ∃ res, copy_all w dst f turns i fd = Done res.
Proof.
  intros Hok Hpat Hwf Hacc.
  pose proof (entries_length f Hwf) as Hlen.
  induction turns as [|turns IH]; intros i fd Hi Hturns; [lia|].
  unfold copy_all; fold copy_all. unfold files.get.
  destruct (i <? files._M_used f) eqn:Hlt;
    [apply Z.ltb_lt in Hlt | by eexists].
  destruct (lookup_lt_is_Some_2 (files.entries f) (Z.to_nat i) ltac:(lia))
    as [e He].
  pose proof (deref_entry _ _ _ He) as Hderef.
  rewrite Z2Nat.id in Hderef by done. rewrite Hderef. simpl.
  rewrite Forall_lookup in Hacc. pose proof (Hacc _ _ He) as Hacc_e.
  destruct (accepted_contents w e Hok Hacc_e) as [Hsize Hrange].
  destruct Hacc_e as (nd & Hnode & _ & _ & _).
  assert (contents w (pcap.filename e) = i_data nd) as Hcont
    by (unfold contents; by rewrite Hnode).
  rewrite Hcont in Hsize.
  destruct (Hpat i) as (rs & k & Hrs & Hk).
  set (offset := if i >? 0 then pcap.sizeof_pcap_file_header else 0).
  assert (0 <= offset <= 24) as Hoff
    by (subst offset; destruct (i >? 0); change pcap.sizeof_pcap_file_header
          with 24; lia).
  destruct (copy_file_total w (on_copy w i) fd (pcap.filename e)
              (pcap.filesize e) offset nd rs k) as ([ok fd1] & ->);
    try done; try lia; [by eapply Hk|].
  simpl. destruct ok; [|by eexists].
  destruct Hwf as (_ & Hused & Hmax). unfold PTRDIFF_MAX in Hmax.
  change pcap.sizeof_file with 24 in Hmax.
  rewrite wrap64_small by lia. apply IH; lia.
Qed.

(** X3. In a world whose file sizes fit [off_t] and whose every copy ends
    with a [write] willing to take a whole file, [main] returns, whatever
    its arguments and whatever else fails: it is never left waiting in the
    copy loop and never reads or writes outside the list's block. *)
Theorem main_terminates `{Libc} (w : world) (argv : list string) :
  world_ok w → patient w → ∃ r, main w argv = Done r.
Proof.
  intros Hok Hpat. unfold main.
  destruct argv as [|prog [|dir [|outp [|extra argv]]]]; try by eexists.
  destruct (stat w dir) as [sbuf|]; [|by eexists].
  destruct (S_ISDIR (st_mode sbuf)); [|by eexists].
  unfold sys_creat. destruct (create_ok w); [|by eexists].
  pose proof (world_ok_created w outp Hok) as Hok'.
  pose proof (patient_created w outp Hpat) as Hpat'.
  set (w' := created w outp) in *.
  destruct (opendir_ok w'); [|by eexists].
  destruct (scan_directory_inv w' dir) as (res & -> & Hinv). simpl.
  destruct res as [[fs sz]|]; [|by eexists].
  destruct (Hinv fs sz eq_refl) as (Hwf & Hacc & _).
  destruct (sys_ftruncate w' _ sz) as [fd|]; [|by eexists].
  destruct (sort_spec fs Hwf) as [Hwf' Hent].
  assert (Forall (accepted w') (files.entries (files.sort fs))) as Hacc'
    by (by rewrite Hent, qsort_permutation).
  match goal with
  | |- context [copy_all ?a ?b ?c ?n ?i ?o] =>
      destruct (copy_all_total a b c Hok' Hpat' Hwf' Hacc' n i o)
        as (res & ->); [lia|simpl; lia|]
  end.
  simpl. destruct res; by eexists.
Qed.

Lemma patient_two_captures : patient two_captures.
Proof.
  intros i. exists [], (Z.to_nat 1024). split; [done|].
  intros path nd Hl. simpl in Hl.
  repeat (apply lookup_insert_Some in Hl as [[_ <-]|[_ Hl]];
          [vm_compute; lia|]).
  by rewrite lookup_empty in Hl.
Qed.

(** ** The scenarios of the specification, run *)

(** Two inputs among files that are skipped (a text file, a capture with an
    unknown magic, a file of 30 bytes); the extension in upper case is
    taken.  The output is 128 bytes: B whole, then the body of A. *)
Example run_two_captures :
  @main reference_libc two_captures ["mergecap"; "caps"; "out.pcap"]
  = Done {| status := 0; stderr := [];
            output := Written (file_B ++ drop 24 file_A) |}
  ∧ length (file_B ++ drop 24 file_A) = 128%nat.
Proof. split; vm_compute; reflexivity. Qed.

Example candidates_of_two_captures :
  filter (λ name, candidate two_captures "caps" name = true)
         (dir_entries two_captures)
  = ["A.pcap"; "B.PCAP"; "corrupt.pcap"].
Proof. vm_compute. reflexivity. Qed.

(** The output named inside the directory, over a capture that is already
    there.  [open] cuts it to length 0 before the scan, so that it is not
    an input of its own merge.  With [A.pcap] as the output of a directory
    that holds nothing else to merge, no input is left and the output is
    the 24 zero bytes. *)
Example run_output_over_the_only_input :
  @main reference_libc one_capture ["mergecap"; "caps"; "caps/A.pcap"]
  = Done {| status := 0; stderr := [];
            output := Written (replicate 24 x00%byte) |}.
Proof. vm_compute. reflexivity. Qed.

(** An old [merged.pcap] is left out when it is the output, and merged in,
    first, when the output goes elsewhere. *)
Example run_output_over_an_old_merge :
  @main reference_libc stale_merge ["mergecap"; "caps"; "caps/merged.pcap"]
  = Done {| status := 0; stderr := [];
            output := Written (file_B ++ drop 24 file_A) |}
  ∧ @main reference_libc stale_merge ["mergecap"; "caps"; "out.pcap"]
    = Done {| status := 0; stderr := [];
              output := Written (contents stale_merge "caps/merged.pcap"
                                 ++ drop 24 file_B ++ drop 24 file_A) |}.
Proof. split; vm_compute; reflexivity. Qed.

(** A nanosecond capture: the sub-second field is added as it stands. *)
Example probe_nanosecond_capture :
  get_first_timestamp nano_capture (on_probe nano_capture 0) "caps/N.pcap"
  = Some (5 * 1000000 + 999999999).
Proof. vm_compute. reflexivity. Qed.

(** Rejections: a short read, an unknown magic, and a capture in the other
    byte order than the host's. *)
Example probe_short_read :
  get_first_timestamp nano_capture
    {| probe_open := true; probe_read := RData 39 |} "caps/N.pcap"
  = None.
Proof. vm_compute. reflexivity. Qed.

Example probe_unknown_magic :
  get_first_timestamp two_captures (on_probe two_captures 0)
    "caps/corrupt.pcap"
  = None.
Proof. vm_compute. reflexivity. Qed.

Example probe_other_byte_order :
  get_first_timestamp big_endian_host (on_probe big_endian_host 0)
    "caps/N.pcap"
  = None.
Proof. vm_compute. reflexivity. Qed.

(** Failures after the output is created. *)
Example run_disk_full :
  @main reference_libc disk_full ["mergecap"; "caps"; "out.pcap"]
  = Done (failure (ErrorCopying 56 "caps/A.pcap" "out.pcap") Unlinked).
Proof. vm_compute. reflexivity. Qed.

Example run_out_of_memory :
  @main reference_libc out_of_memory ["mergecap"; "caps"; "out.pcap"]
  = Done (failure ErrorAllocatingMemory Unlinked).
Proof. vm_compute. reflexivity. Qed.

(** An interrupted [write] and short writes do not fail the copy. *)
Example copy_with_interruptions :
  copy_file two_captures
    {| copy_open := true; copy_mmap := true;
       copy_writes := [WAccept 10; WError EINTR; WAccept 30; WAccept 1024] |}
    {| o_data := replicate 72 x00%byte; o_pos := 0 |} "caps/B.PCAP" 72 0
  = Done (true, {| o_data := file_B; o_pos := 72 |}).
Proof. vm_compute. reflexivity. Qed.

(** A copy whose answers run out is still waiting. *)
Example copy_left_waiting :
  copy_file two_captures
    {| copy_open := true; copy_mmap := true;
       copy_writes := [WAccept 0; WAccept 0] |}
    {| o_data := replicate 72 x00%byte; o_pos := 0 |} "caps/B.PCAP" 72 0
  = Blocked.
Proof. vm_compute. reflexivity. Qed.

(** * Further properties of the code *)

(** ** [main]: what happens before the output exists *)

(** X1. A run that does not get as far as creating the output (wrong number
    of arguments, first argument missing or not a directory, output that
    cannot be opened) returns -1 with the matching diagnostic and leaves the
    output path alone: a file already there is neither truncated nor
    removed. *)
Theorem early_failure_leaves_output_alone `{Libc} (w : world)
  (argv : list string) :
  (length argv ≠ 3%nat →
     main w argv
     = Done (failure (Usage (default "" (argv !! 0%nat))) Untouched))
  ∧ (∀ prog dir outp,
       argv = [prog; dir; outp] →
       (∀ sbuf, stat w dir = Some sbuf → st_mode sbuf ≠ S_IFDIR) →
       main w argv = Done (failure (NotADirectory dir) Untouched))
  ∧ (∀ prog dir outp sbuf,
       argv = [prog; dir; outp] →
       stat w dir = Some sbuf → st_mode sbuf = S_IFDIR →
       create_ok w = false →
       main w argv = Done (failure (ErrorOpeningFile outp) Untouched))
  ∧ (∀ r, main w argv = Done r →
       output r = Untouched →
       status r = -1
       ∧ (length argv ≠ 3%nat
          ∨ (∃ dir, argv !! 1%nat = Some dir
                    ∧ ∀ sbuf, stat w dir = Some sbuf → st_mode sbuf ≠ S_IFDIR)
          ∨ create_ok w = false)).
Proof.
  split; [|split; [|split]].
  - intros Hlen. unfold main.
    by destruct argv as [|a [|b [|c [|d l]]]].
  - intros prog dir outp -> Hnodir. unfold main.
    destruct (stat w dir) as [sbuf|] eqn:Hstat; [|done].
    specialize (Hnodir sbuf eq_refl).
    destruct (st_mode sbuf); [by destruct Hnodir|done|done].
  - intros prog dir outp sbuf -> Hstat Hdir Hcreate. unfold main, sys_creat.
    by rewrite Hstat, Hdir, Hcreate.
  - intros r. unfold main, failure.
    destruct argv as [|prog [|dir [|outp [|extra argv]]]];
      try (intros [= <-] _; split; [done|left; simpl; lia]).
    destruct (stat w dir) as [sbuf|] eqn:Hstat.
    2: { intros [= <-] _. split; [done|]. right. left. exists dir.
         split; [done|]. intros sb Hsb. by rewrite Hstat in Hsb. }
    destruct (S_ISDIR (st_mode sbuf)) eqn:Hdir.
    2: { intros [= <-] _. split; [done|]. right. left. exists dir.
         split; [done|]. intros sb Hsb Hd. rewrite Hstat in Hsb.
         injection Hsb as <-. by rewrite Hd in Hdir. }
    unfold sys_creat. destruct (create_ok w).
    2: { intros [= <-] _. split; [done|]. by right; right. }
    destruct (opendir_ok _); [|by intros [= <-]].
    destruct (scan_directory _ dir) as [[[fs sz]|]| |]; simpl; try done;
      [|by intros [= <-]].
    destruct (sys_ftruncate _ _ sz) as [fd|]; [|by intros [= <-]].
    match goal with
    | |- context [copy_all ?a ?b ?c ?n ?i ?o] =>
        destruct (copy_all a b c n i o) as [[fd'|d]| |]
    end; simpl; try done; by intros [= <-].
Qed.

(** ** [main]: memory safety and termination *)

Lemma write_loop_defined base to_copy rs :
  ∀ ptr written fd, write_loop base to_copy rs ptr written fd ≠ Undefined.
Proof.
  induction rs as [|r rs IH]; intros ptr written fd; simpl; [done|].
  destruct (copy_turn base to_copy r ptr written fd); [done|apply IH].
Qed.

Lemma copy_file_defined w r fd filename filesize offset :
  copy_file w r fd filename filesize offset ≠ Undefined.
Proof.
  unfold copy_file.
  destruct (sys_open w (copy_open r) filename) as [infd|]; [|done].
  destruct (sys_mmap (copy_mmap r) infd filesize); [|done].
  apply write_loop_defined.
Qed.

Lemma copy_all_defined w dst f :
  files_wf f →
  ∀ turns i fd, 0 <= i → copy_all w dst f turns i fd ≠ Undefined.
Proof.
  intros Hwf. pose proof (entries_length f Hwf) as Hlen.
  induction turns as [|turns IH]; intros i fd Hi; [done|].
  unfold copy_all; fold copy_all. unfold files.get.
  destruct (i <? files._M_used f) eqn:Hlt; [apply Z.ltb_lt in Hlt | done].
  destruct (lookup_lt_is_Some_2 (files.entries f) (Z.to_nat i) ltac:(lia))
    as [e He].
  pose proof (deref_entry _ _ _ He) as Hderef.
  rewrite Z2Nat.id in Hderef by done. rewrite Hderef. simpl.
  match goal with
  | |- context [copy_file ?a ?b ?c ?d ?e ?f] =>
      pose proof (copy_file_defined a b c d e f) as Hdef;
      destruct (copy_file a b c d e f) as [[ok fd1]| |]
  end; simpl; try done.
  destruct ok; [|done]. apply IH. unfold wrap64.
  apply Z.mod_pos_bound. lia.
Qed.

(** X2. Whatever the arguments, the file system and the answers of the
    kernel and of the allocator, [main] never reads or writes a cell outside
    the block of the list: the store in [add] and the reads through the
    pointers [get] returns stay in bounds. *)
Theorem main_never_undefined `{Libc} (w : world) (argv : list string) :
  main w argv ≠ Undefined.
Proof.
  unfold main.
  destruct argv as [|prog [|dir [|outp [|extra argv]]]]; try done.
  destruct (stat w dir) as [sbuf|]; [|done].
  destruct (S_ISDIR (st_mode sbuf)); [|done].
  destruct (sys_creat w outp) as [[w' fd0]|]; [|done].
  destruct (opendir_ok w'); [|done].
  destruct (scan_directory_inv w' dir) as (res & -> & Hinv). simpl.
  destruct res as [[fs sz]|]; [|done].
  destruct (Hinv fs sz eq_refl) as (Hwf & _ & _).
  destruct (sys_ftruncate w' fd0 sz) as [fd|]; [|done].
  destruct (sort_spec fs Hwf) as [Hwf' _].
  match goal with
  | |- context [copy_all ?a ?b ?c ?n ?i ?o] =>
      pose proof (copy_all_defined a b c Hwf' n i o ltac:(lia)) as Hdef;
      destruct (copy_all a b c n i o) as [[fd'|d]| |]
  end; simpl; done.
Qed.

(** The statement of [main_terminates] for the run on [two_captures]. *)
Lemma main_terminates_witness :
  ∃ r, @main reference_libc two_captures ["mergecap"; "caps"; "out.pcap"]
       = Done r.
Proof.
  apply (@main_terminates reference_libc two_captures).
  - apply world_ok_two_captures.
  - apply patient_two_captures.
Defined.

(** ** [copy_file]: what reaches the output *)

Lemma write_loop_prefix base to_copy rs :
  ∀ ptr written fd ok fd',
    0 <= ptr → 0 <= written < to_copy → to_copy < 2 ^ 64 →
    ptr + (to_copy - written) = Z.of_nat (length base) →
    write_loop base to_copy rs ptr written fd = Done (ok, fd') →
    ∃ n, 0 <= n <= to_copy - written
         ∧ fd' = write_at fd (take (Z.to_nat n) (drop (Z.to_nat ptr) base))
         ∧ (ok = true ↔ n = to_copy - written).
Proof.
  induction rs as [|r rs IH]; intros ptr written fd ok fd' Hptr Hw Hmax Hlen;
    simpl; [done|].
  unfold copy_turn. rewrite (wrap64_small (to_copy - written)) by lia.
  destruct r as [k|e].
  - rewrite sys_write_accept.
    set (n := ((k `min` Z.to_nat (to_copy - written))
                 `min` length (drop (Z.to_nat ptr) base))%nat).
    assert (n ≤ length (drop (Z.to_nat ptr) base))%nat as Hn by lia.
    rewrite length_drop in Hn.
    destruct (Z.of_nat n >? 0) eqn:Hpos.
    + apply Z.gtb_gt in Hpos. rewrite wrap64_small by lia.
      destruct (written + Z.of_nat n =? to_copy) eqn:Hdone.
      * apply Z.eqb_eq in Hdone. intros [= <- <-].
        exists (Z.of_nat n). rewrite Nat2Z.id. split; [lia|]. split; [done|].
        split; [lia|done].
      * apply Z.eqb_neq in Hdone. intros Hrest.
        apply IH in Hrest as (m & Hm & -> & Hok); try lia.
        exists (Z.of_nat n + m). split; [lia|]. split.
        -- rewrite write_at_app. f_equal.
           replace (Z.to_nat (ptr + Z.of_nat n)) with (Z.to_nat ptr + n)%nat
             by lia.
           rewrite <- drop_drop.
           replace (Z.to_nat (Z.of_nat n + m)) with (n + Z.to_nat m)%nat by lia.
           by rewrite take_take_drop.
        -- rewrite Hok. lia.
    + rewrite <- not_true_iff_false, Z.gtb_gt in Hpos.
      replace n with 0%nat by lia. rewrite take_0. simpl.
      by apply IH.
  - simpl. destruct (e =? EINTR); simpl; [by apply IH|].
    intros [= <- <-]. exists 0. split; [lia|]. split; [done|].
    split; [done|lia].
Qed.

(** X4. On a file of the recorded size, whatever [copy_file] returns, what
    it has written through the descriptor is a prefix of the range asked
    for, the bytes from [offset] to the end of the file, in order and
    starting at the descriptor's offset; it returns true exactly when the
    prefix is the whole range.  A failed copy never leaves bytes of another
    range or out of order. *)
Theorem copy_file_writes_prefix (w : world) (r : copy_resp) (fd fd' : ofile)
  (filename : string) (filesize offset : Z) (nd : inode) (ok : bool) :
  nodes w !! filename = Some nd →
  filesize = Z.of_nat (length (i_data nd)) →
  0 <= offset < filesize →
  filesize < 2 ^ 64 →
  copy_file w r fd filename filesize offset = Done (ok, fd') →
  ∃ n, 0 <= n <= filesize - offset
       ∧ fd' = write_at fd (take (Z.to_nat n)
                              (drop (Z.to_nat offset) (i_data nd)))
       ∧ (ok = true ↔ n = filesize - offset).
Proof.
  intros Hnode Hsize Hoff Hmax. unfold copy_file, sys_open.
  assert (∀ fd0, Done (false, fd) = Done (ok, fd0) →
            ∃ n, 0 <= n <= filesize - offset
                 ∧ fd0 = write_at fd (take (Z.to_nat n)
                                        (drop (Z.to_nat offset) (i_data nd)))
                 ∧ (ok = true ↔ n = filesize - offset)) as Hnone.
  { intros fd0 [= <- <-]. exists 0. split; [lia|]. split; [done|].
    split; [done|lia]. }
  destruct (copy_open r); [|apply Hnone]. rewrite Hnode. unfold sys_mmap.
  destruct (i_type nd); try apply Hnone.
  destruct (copy_mmap r && negb (filesize =? 0)); [|apply Hnone].
  rewrite wrap64_small by lia. intros Hloop.
  apply write_loop_prefix in Hloop as (n & Hn & -> & Hok); try lia.
  exists n. split; [lia|]. split; [done|]. rewrite Hok. lia.
Qed.

(** The statement for the copy of A's body that stops after 16 bytes. *)
Lemma copy_file_writes_prefix_witness :
  ∃ n, 0 <= n <= 80 - 24
       ∧ {| o_data := take 16 (drop 24 file_A); o_pos := 16 |}
         = write_at {| o_data := []; o_pos := 0 |}
             (take (Z.to_nat n) (drop (Z.to_nat 24) (i_data (regular file_A))))
       ∧ (false = true ↔ n = 80 - 24).
Proof.
  apply (copy_file_writes_prefix two_captures
           {| copy_open := true; copy_mmap := true;
              copy_writes := [WAccept 16; WError EINTR; WError 28] |}
           {| o_data := []; o_pos := 0 |} _ "caps/A.pcap" 80 24).
  - reflexivity.
  - reflexivity.
  - lia.
  - lia.
  - vm_compute. reflexivity.
Defined.

Lemma write_loop_false base to_copy rs :
  ∀ ptr written fd fd',
    write_loop base to_copy rs ptr written fd = Done (false, fd') →
    ∃ e, WError e ∈ rs ∧ e ≠ EINTR.
Proof.
  induction rs as [|r rs IH]; intros ptr written fd fd'; simpl; [done|].
  unfold copy_turn.
  destruct (sys_write r fd (drop (Z.to_nat ptr) base)
              (wrap64 (to_copy - written))) as [[ret errno] fd1] eqn:Hw.
  assert (∀ p wr, write_loop base to_copy rs p wr fd1 = Done (false, fd') →
            ∃ e, WError e ∈ r :: rs ∧ e ≠ EINTR) as Hnext.
  { intros p wr Hrest. apply IH in Hrest as (e & He & Hne).
    exists e. split; [by apply list_elem_of_further|done]. }
  destruct (ret >? 0).
  { destruct (wrap64 (written + ret) =? to_copy); [done|apply Hnext]. }
  destruct (ret <? 0) eqn:Hneg; [apply Z.ltb_lt in Hneg|apply Hnext].
  destruct (errno =? EINTR) eqn:Herr; simpl; [apply Hnext|].
  intros _. destruct r as [k|e]; simpl in Hw.
  - destruct (take _ _); injection Hw as <- _ _; simpl in Hneg; lia.
  - injection Hw as _ <- _. exists e. apply Z.eqb_neq in Herr.
    split; [apply list_elem_of_here|done].
Qed.

(** X5. [copy_file] does not fail of its own: when it returns false, either
    [open] failed, or [mmap] failed, or some [write] returned an error other
    than [EINTR]. *)
Theorem copy_file_fails_for_a_cause (w : world) (r : copy_resp)
  (fd fd' : ofile) (filename : string) (filesize offset : Z) :
  copy_file w r fd filename filesize offset = Done (false, fd') →
  sys_open w (copy_open r) filename = None
  ∨ (∃ infd, sys_open w (copy_open r) filename = Some infd
             ∧ sys_mmap (copy_mmap r) infd filesize = None)
  ∨ (∃ e, WError e ∈ copy_writes r ∧ e ≠ EINTR).
Proof.
  unfold copy_file.
  destruct (sys_open w (copy_open r) filename) as [infd|]; [|by left].
  destruct (sys_mmap (copy_mmap r) infd filesize) as [base|] eqn:Hmap.
  - intros Hloop. right. right. by eapply write_loop_false.
  - intros _. right. left. by exists infd.
Qed.

(** The statement for the copy of A's body on the disk that fills up. *)
Lemma copy_file_fails_for_a_cause_witness :
  let r := {| copy_open := true; copy_mmap := true;
              copy_writes := [WAccept 16; WError EINTR; WError 28] |} in
  sys_open two_captures (copy_open r) "caps/A.pcap" = None
  ∨ (∃ infd, sys_open two_captures (copy_open r) "caps/A.pcap" = Some infd
             ∧ sys_mmap (copy_mmap r) infd 80 = None)
  ∨ (∃ e, WError e ∈ copy_writes r ∧ e ≠ EINTR).
Proof.
  apply (copy_file_fails_for_a_cause two_captures _
           {| o_data := []; o_pos := 0 |}
           {| o_data := take 16 (drop 24 file_A); o_pos := 16 |}
           "caps/A.pcap" 80 24).
  vm_compute. reflexivity.
Defined.

(** ** The write loop: answers that are passed over *)

Lemma copy_turn_passed_over base to_copy r ptr written fd :
  passed_over r = true →
  copy_turn base to_copy r ptr written fd = Again ptr written fd.
Proof.
  unfold copy_turn. destruct r as [[|k]|e]; simpl; try done.
  by intros ->.
Qed.

(** X6. Interruptions and writes of no byte change nothing: the copy loop
    ends the same way, with the same bytes written, on a sequence of answers
    and on that sequence with every [EINTR] and every zero-byte answer left
    out. *)
Theorem write_loop_skips_passed_over (base : list byte) (to_copy : Z)
  (rs : list write_resp) (ptr written : Z) (fd : ofile) :
  write_loop base to_copy rs ptr written fd
  = write_loop base to_copy (filter (λ r, passed_over r = false) rs)
      ptr written fd.
Proof.
  revert ptr written fd.
  induction rs as [|r rs IH]; intros ptr written fd; [done|].
  destruct (passed_over r) eqn:Hr.
  - rewrite filter_cons_False by (by rewrite Hr). simpl.
    by rewrite copy_turn_passed_over.
  - rewrite filter_cons_True by done. simpl.
    destruct (copy_turn base to_copy r ptr written fd); [done|apply IH].
Qed.

(** ** [compare] and [sort] *)

(** X7. [compare] is a consistent three-way comparison of the time stamps,
    as [qsort] requires of its comparison function: it returns -1, 0 or 1
    according to the order of the time stamps, swapping the arguments negates
    the result, and "not greater" is transitive. *)
Theorem compare_is_consistent (a b c : pcap.file) :
  (files.compare a b = -1 ↔ pcap.timestamp a < pcap.timestamp b)
  ∧ (files.compare a b = 0 ↔ pcap.timestamp a = pcap.timestamp b)
  ∧ (files.compare a b = 1 ↔ pcap.timestamp a > pcap.timestamp b)
  ∧ files.compare a b = - files.compare b a
  ∧ (files.compare a b <= 0 → files.compare b c <= 0 →
     files.compare a c <= 0).
Proof.
  assert (∀ x y,
            (pcap.timestamp x < pcap.timestamp y ∧ files.compare x y = -1)
            ∨ (pcap.timestamp x = pcap.timestamp y ∧ files.compare x y = 0)
            ∨ (pcap.timestamp x > pcap.timestamp y ∧ files.compare x y = 1))
    as Hcases.
  { intros x y. unfold files.compare.
    destruct (pcap.timestamp x <? pcap.timestamp y) eqn:Hlt.
    { apply Z.ltb_lt in Hlt. by left. }
    apply Z.ltb_ge in Hlt.
    destruct (pcap.timestamp x >? pcap.timestamp y) eqn:Hgt.
    - apply Z.gtb_gt in Hgt. right. right. split; [lia|done].
    - rewrite <- not_true_iff_false, Z.gtb_gt in Hgt. right. left.
      split; [lia|done]. }
  pose proof (Hcases a b). pose proof (Hcases b a).
  pose proof (Hcases b c). pose proof (Hcases a c). lia.
Qed.

Lemma sort_entries `{Libc} f :
  files.entries (files.sort f) = qsort files.compare (files.entries f).
Proof.
  unfold files.entries, files.sort; simpl.
  set (n := Z.to_nat (files._M_used f)).
  pose proof (Permutation_length
                (qsort_permutation _ files.compare (take n (files._M_files f))))
    as Hlen.
  rewrite length_take in Hlen.
  destruct (decide (n ≤ length (files._M_files f))%nat).
  - rewrite take_app_length' by lia. done.
  - rewrite (drop_ge (files._M_files f)), app_nil_r by lia.
    rewrite take_ge by lia. done.
Qed.

Lemma sorted_timestamps `{Libc} (l : list pcap.file) :
  StronglySorted Z.le (pcap.timestamp <$> qsort files.compare l).
Proof.
  apply (StronglySorted_fmap pcap.timestamp
           (λ a b, pcap.timestamp a <= pcap.timestamp b) Z.le); [done|].
  apply Sorted_StronglySorted.
  - intros a b c. lia.
  - eapply Sorted_weaken; [|apply qsort_sorted, compare_total].
    intros a b. by rewrite compare_le.
Qed.

(** X8. The order of the time stamps after [sort] does not depend on the
    [qsort] of the library: any two implementations that meet the contract
    leave the same sequence of time stamps, and the same number of entries. *)
Theorem sort_order_is_libc_independent (L1 L2 : Libc) (f : files.t) :
  pcap.timestamp <$> files.entries (@files.sort L1 f)
  = pcap.timestamp <$> files.entries (@files.sort L2 f)
  ∧ length (files.entries (@files.sort L1 f)) = length (files.entries f).
Proof.
  rewrite !sort_entries. split.
  - apply (StronglySorted_unique Z.le); try apply sorted_timestamps.
    by rewrite !qsort_permutation.
  - by rewrite qsort_permutation.
Qed.

Lemma NoDup_fmap_eq {A B} (f : A → B) (l : list A) x y :
  NoDup (f <$> l) → x ∈ l → y ∈ l → f x = f y → x = y.
Proof.
  induction l as [|a l IH]; csimpl; intros Hnd Hx Hy Hf; [by inversion Hx|].
  apply NoDup_cons in Hnd as [Hnotin Hnd].
  apply elem_of_cons in Hx as [->|Hx]; apply elem_of_cons in Hy as [->|Hy];
    try done.
  - destruct Hnotin. rewrite Hf. by apply list_elem_of_fmap_2.
  - destruct Hnotin. rewrite <- Hf. by apply list_elem_of_fmap_2.
  - by apply IH.
Qed.

Lemma sort_unique (L1 L2 : Libc) (f : files.t) :
  NoDup (pcap.timestamp <$> files.entries f) →
  @files.sort L1 f = @files.sort L2 f.
Proof.
  intros Hnd. unfold files.sort, files.entries in *. f_equal. f_equal.
  set (l := take (Z.to_nat (files._M_used f)) (files._M_files f)) in *.
  apply (StronglySorted_unique_strong
           (λ a b, pcap.timestamp a <= pcap.timestamp b)).
  - intros x y Hx Hy Hxy Hyx.
    rewrite (@qsort_permutation L1) in Hx.
    rewrite (@qsort_permutation L2) in Hy.
    apply (NoDup_fmap_eq pcap.timestamp l); try done. lia.
  - apply Sorted_StronglySorted; [intros a b c; lia|].
    eapply Sorted_weaken; [|apply qsort_sorted, compare_total].
    intros a b. by rewrite compare_le.
  - apply Sorted_StronglySorted; [intros a b c; lia|].
    eapply Sorted_weaken; [|apply qsort_sorted, compare_total].
    intros a b. by rewrite compare_le.
  - by rewrite (@qsort_permutation L1), (@qsort_permutation L2).
Qed.

(** X9. When the accepted inputs have pairwise different first-packet time
    stamps, the whole run (status, diagnostics and output) is the same
    with any two [qsort] implementations that meet the contract.  The
    accepted inputs are those of the scan the run makes, after the output
    is created. *)
Theorem distinct_timestamps_fix_the_run (L1 L2 : Libc) (w : world)
  (prog dir outp : string) (fs : files.t) (sz : Z) :
  scan_directory (created w outp) dir = Done (Some (fs, sz)) →
  NoDup (pcap.timestamp <$> files.entries fs) →
  @main L1 w [prog; dir; outp] = @main L2 w [prog; dir; outp].
Proof.
  intros Hscan Hnd. unfold main.
  destruct (stat w dir) as [sbuf|]; [|done].
  destruct (S_ISDIR (st_mode sbuf)); [|done].
  unfold sys_creat. destruct (create_ok w); [|done].
  destruct (opendir_ok _); [|done].
  rewrite Hscan. simpl.
  destruct (sys_ftruncate _ _ sz) as [fd|]; [|done].
  by rewrite (sort_unique L1 L2 fs Hnd).
Qed.

Lemma insertion_sort_reverse_permutation {A} (cmp : A → A → Z) l :
  insertion_sort cmp (reverse l) ≡ₚ l.
Proof. by rewrite insertion_sort_permutation, reverse_Permutation. Qed.

(** Another [qsort] that meets the contract: it goes through the array from
    its end, so equal elements come out in the opposite order. *)
#[local] Instance reversing_libc : Libc :=
  {| qsort := λ A cmp l, insertion_sort cmp (reverse l);
     qsort_permutation := @insertion_sort_reverse_permutation;
     qsort_sorted := λ A cmp l, insertion_sort_sorted cmp (reverse l) |}.

(** The statement for the run on [two_captures], with the two libraries. *)
Lemma distinct_timestamps_fix_the_run_witness :
  @main reference_libc two_captures ["mergecap"; "caps"; "out.pcap"]
  = @main reversing_libc two_captures ["mergecap"; "caps"; "out.pcap"].
Proof.
  apply (distinct_timestamps_fix_the_run reference_libc reversing_libc
           two_captures "mergecap" "caps" "out.pcap" files_with_A_B 128).
  - vm_compute. reflexivity.
  - apply (bool_decide_unpack _). vm_compute. exact I.
Defined.

(** ** The growth of the list *)

Lemma add_capacity r f name size ts ok f' :
  files_wf f →
  files.add r f name size ts = Done (ok, f') →
  files._M_size f' = files._M_size f
  ∨ (files._M_used f = files._M_size f
     ∧ files._M_size f'
       = if files._M_size f =? 0 then 1024 else 2 * files._M_size f).
Proof.
  intros (Hlen & Hused & Hmax). unfold files.add, files.allocate.
  unfold PTRDIFF_MAX in Hmax. change pcap.sizeof_file with 24 in Hmax.
  destruct (files._M_used f <? files._M_size f) eqn:Hroom.
  { destruct (strdup_ok r); [|intros [= <- <-]; by left].
    destruct (decide _); [|done]. intros [= <- <-]. by left. }
  apply Z.ltb_ge in Hroom.
  assert ((if files._M_size f >? 0 then wrap64 (files._M_size f * 2) else 1024)
          = if files._M_size f =? 0 then 1024 else 2 * files._M_size f)
    as ->.
  { destruct (files._M_size f >? 0) eqn:Hpos.
    - apply Z.gtb_gt in Hpos. rewrite wrap64_small by lia.
      destruct (files._M_size f =? 0) eqn:Hz; [apply Z.eqb_eq in Hz|]; lia.
    - rewrite <- not_true_iff_false, Z.gtb_gt in Hpos.
      by replace (files._M_size f) with 0 by lia. }
  destruct (realloc r _ _) as [cells|]; [|intros [= <- <-]; by left].
  destruct (strdup_ok r); [|intros [= <- <-]; right; simpl; split; [lia|done]].
  simpl. destruct (decide _); [|done].
  intros [= <- <-]. right. simpl. split; [lia|done].
Qed.

(** X10. In every state of the list the capacity is 0 or 1024 times a power
    of two, it is at least the number of entries, and it never exceeds the
    larger of 1024 and twice the number of entries: the block is never more
    than twice as large as needed. *)
Theorem capacity_is_bounded `{Libc} (f : files.t) (l : list pcap.file) :
  reach f l →
  files._M_used f = Z.of_nat (length l)
  ∧ Z.of_nat (length (files._M_files f)) = files._M_size f
  ∧ (files._M_size f = 0 ∨ ∃ k : nat, files._M_size f = 1024 * 2 ^ Z.of_nat k)
  ∧ Z.of_nat (length l) <= files._M_size f
  ∧ files._M_size f <= Z.max 1024 (2 * Z.of_nat (length l)).
Proof.
  assert (∀ f l, reach f l →
            (files._M_size f = 0
             ∨ ∃ k : nat, files._M_size f = 1024 * 2 ^ Z.of_nat k)
            ∧ files._M_size f <= Z.max 1024 (2 * Z.of_nat (length l)))
    as Hcap.
  { clear f l. induction 1 as [|f l r name size ts f' Hr [IHp IHb] Hadd
                                |f l r name size ts f' Hr [IHp IHb] Hadd
                                |f l Hr [IHp IHb]].
    - split; [by left|simpl; lia].
    - destruct (reach_wf f l Hr) as [Hwf Hent].
      pose proof (entries_length f Hwf) as Hlen. rewrite Hent in Hlen.
      rewrite length_app. simpl length.
      destruct (add_capacity _ _ _ _ _ _ _ Hwf Hadd) as [->|[Hfull ->]];
        [split; [done|lia]|].
      destruct (files._M_size f =? 0) eqn:Hz;
        [apply Z.eqb_eq in Hz | apply Z.eqb_neq in Hz].
      + split; [right; by exists 0%nat | lia].
      + split; [|lia]. destruct IHp as [?|[k Hk]]; [done|].
        right. exists (S k). rewrite Hk, Nat2Z.inj_succ, Z.pow_succ_r; lia.
    - destruct (reach_wf f l Hr) as [Hwf Hent].
      pose proof (entries_length f Hwf) as Hlen. rewrite Hent in Hlen.
      destruct (add_capacity _ _ _ _ _ _ _ Hwf Hadd) as [->|[Hfull ->]];
        [done|].
      destruct (files._M_size f =? 0) eqn:Hz;
        [apply Z.eqb_eq in Hz | apply Z.eqb_neq in Hz].
      + split; [right; by exists 0%nat | lia].
      + split; [|lia]. destruct IHp as [?|[k Hk]]; [done|].
        right. exists (S k). rewrite Hk, Nat2Z.inj_succ, Z.pow_succ_r; lia.
    - rewrite (Permutation_length (qsort_permutation _ _ _)). done. }
  intros Hr. destruct (Hcap f l Hr) as [Hp Hb].
  destruct (reach_wf f l Hr) as [Hwf Hent].
  pose proof (entries_length f Hwf) as Hlen. rewrite Hent in Hlen.
  destruct Hwf as (Hcells & Hused & _).
  repeat split; try done; lia.
Qed.

(** The statement for the list that holds A alone. *)
Lemma capacity_is_bounded_witness :
  files._M_used files_with_A = Z.of_nat (length [entry_A])
  ∧ Z.of_nat (length (files._M_files files_with_A))
    = files._M_size files_with_A
  ∧ (files._M_size files_with_A = 0
     ∨ ∃ k : nat, files._M_size files_with_A = 1024 * 2 ^ Z.of_nat k)
  ∧ Z.of_nat (length [entry_A]) <= files._M_size files_with_A
  ∧ files._M_size files_with_A
    <= Z.max 1024 (2 * Z.of_nat (length [entry_A])).
Proof.
  apply (@capacity_is_bounded reference_libc files_with_A [entry_A]).
  apply reach_files_with_A.
Defined.

(** ** The probe: what the time stamp is worth *)

Lemma probe_value w r path t :
  get_first_timestamp w r path = Some t →
  t = pcap.tv_sec (first_packet w path) * 1000000
      + pcap.tv_usec (first_packet w path)
  ∧ 0 <= pcap.tv_sec (first_packet w path) < 2 ^ 32
  ∧ 0 <= pcap.tv_usec (first_packet w path) < 2 ^ 32.
Proof.
  unfold get_first_timestamp, first_packet, sys_open, contents.
  destruct (probe_open r); [|done].
  destruct (nodes w !! path) as [fd|]; [|done].
  destruct (sys_read (probe_read r) fd pcap.minimum_size) as [n buf] eqn:Hread.
  destruct (n =? pcap.minimum_size) eqn:Hn; [|done].
  apply Z.eqb_eq in Hn. subst n.
  destruct (sys_read_full _ _ _ Hread) as [-> _].
  change (Z.to_nat pcap.sizeof_pcap_file_header) with 24%nat.
  set (ph := pcap.as_pkthdr (byte_order w) (drop 24 (take 40 (i_data fd)))).
  assert (0 <= pcap.tv_sec (pcap.ts ph) < 2 ^ 32) as Hsec
    by apply (field_bound _ _ _ 4).
  assert (0 <= pcap.tv_usec (pcap.ts ph) < 2 ^ 32) as Husec
    by apply (field_bound _ _ _ 4).
  destruct (_ && _); [|done]. intros [= <-].
  split; [|done]. subst ph. simpl in Hsec, Husec |- *. unfold wrap64.
  change (2 ^ 32) with 4294967296 in *.
  change (2 ^ 64) with 18446744073709551616.
  rewrite (Z.mod_small (_ * _)) by lia. apply Z.mod_small. lia.
Qed.

(** X11. For two files the probe accepts whose sub-second fields are below
    1,000,000 (as in a well-formed microsecond capture), the time stamps
    compare as the pairs (seconds, sub-seconds) do: in particular equal time
    stamps mean equal seconds and equal sub-seconds. *)
Theorem probe_orders_well_formed_times (w : world) (r1 r2 : probe_resp)
  (p1 p2 : string) (t1 t2 : Z) :
  get_first_timestamp w r1 p1 = Some t1 →
  get_first_timestamp w r2 p2 = Some t2 →
  pcap.tv_usec (first_packet w p1) < 1000000 →
  pcap.tv_usec (first_packet w p2) < 1000000 →
  (t1 < t2 ↔
     pcap.tv_sec (first_packet w p1) < pcap.tv_sec (first_packet w p2)
     ∨ (pcap.tv_sec (first_packet w p1) = pcap.tv_sec (first_packet w p2)
        ∧ pcap.tv_usec (first_packet w p1) < pcap.tv_usec (first_packet w p2)))
  ∧ (t1 = t2 ↔
       pcap.tv_sec (first_packet w p1) = pcap.tv_sec (first_packet w p2)
       ∧ pcap.tv_usec (first_packet w p1) = pcap.tv_usec (first_packet w p2)).
Proof.
  intros (-> & Hs1 & Hu1)%probe_value (-> & Hs2 & Hu2)%probe_value Hw1 Hw2.
  lia.
Qed.

(** The statement for B and A in [two_captures]. *)
Lemma probe_orders_well_formed_times_witness :
  let w := two_captures in
  let p1 := "caps/B.PCAP" in
  let p2 := "caps/A.pcap" in
  (90250000 < 100500000 ↔
     pcap.tv_sec (first_packet w p1) < pcap.tv_sec (first_packet w p2)
     ∨ (pcap.tv_sec (first_packet w p1) = pcap.tv_sec (first_packet w p2)
        ∧ pcap.tv_usec (first_packet w p1) < pcap.tv_usec (first_packet w p2)))
  ∧ (90250000 = 100500000 ↔
       pcap.tv_sec (first_packet w p1) = pcap.tv_sec (first_packet w p2)
       ∧ pcap.tv_usec (first_packet w p1) = pcap.tv_usec (first_packet w p2)).
Proof.
  apply (probe_orders_well_formed_times two_captures
           (on_probe two_captures 0) (on_probe two_captures 0)).
  - vm_compute. reflexivity.
  - vm_compute. reflexivity.
  - vm_compute. reflexivity.
  - vm_compute. reflexivity.
Defined.

(** X12. The probe looks at the first 40 bytes and at nothing else: two
    files of the same type with the same first 40 bytes get the same answer,
    whatever follows in either. *)
Theorem probe_reads_40_bytes_only (w : world) (r : probe_resp)
  (p1 p2 : string) (n1 n2 : inode) :
  nodes w !! p1 = Some n1 →
  nodes w !! p2 = Some n2 →
  i_type n1 = i_type n2 →
  take 40 (i_data n1) = take 40 (i_data n2) →
  get_first_timestamp w r p1 = get_first_timestamp w r p2.
Proof.
  intros H1 H2 Hty Hdata. unfold get_first_timestamp, sys_open.
  destruct (probe_open r); [|done]. rewrite H1, H2.
  assert (sys_read (probe_read r) n1 pcap.minimum_size
          = sys_read (probe_read r) n2 pcap.minimum_size) as ->; [|done].
  unfold sys_read. rewrite Hty. change pcap.minimum_size with 40.
  destruct (probe_read r) as [k|]; [|done].
  destruct (i_type n2); try done.
  assert (∀ l : list byte,
            take (k `min` Z.to_nat 40) l
            = take (k `min` Z.to_nat 40) (take 40 l)) as Htake
    by (intros l; rewrite take_take; f_equal; lia).
  by rewrite (Htake (i_data n1)), (Htake (i_data n2)), Hdata.
Qed.

(** The statement for A and the file that shares its first 40 bytes. *)
Lemma probe_reads_40_bytes_only_witness :
  get_first_timestamp same_start (on_probe same_start 0) "caps/A.pcap"
  = get_first_timestamp same_start (on_probe same_start 0) "caps/A2.pcap".
Proof.
  apply (probe_reads_40_bytes_only same_start _ _ _
           (regular file_A)
           (regular (take 40 file_A ++ replicate 7 x02%byte))).
  - reflexivity.
  - reflexivity.
  - reflexivity.
  - vm_compute. reflexivity.
Defined.

(** ** The scan: what the list holds *)

Lemma regular_and_large_stat w pathname sbuf :
  regular_and_large w pathname = Some sbuf → stat w pathname = Some sbuf.
Proof.
  unfold regular_and_large. destruct (stat w pathname) as [sb|]; [|done].
  destruct (_ && _); [|done]. by intros [= <-].
Qed.

Lemma scan_entry_probed w dir k d_name fs sz fs' sz' :
  files_wf fs →
  scan_entry w dir k d_name fs sz = Done (Some (fs', sz')) →
  files_wf fs'
  ∧ files.entries fs'
    = files.entries fs ++ match probed_entry w dir k d_name with
                          | Some e => [e]
                          | None => []
                          end.
Proof.
  intros Hwf. unfold scan_entry, probed_entry, candidate.
  set (pathname := compose_pathname w dir d_name).
  destruct (regular_and_large w pathname) as [sbuf|] eqn:Hreg;
    [|intros [= <- _]; by rewrite app_nil_r].
  rewrite (regular_and_large_stat _ _ _ Hreg).
  destruct (pcap_name d_name); [|intros [= <- _]; by rewrite app_nil_r].
  simpl.
  destruct (get_first_timestamp w (on_probe w k) pathname) as [ts|]; simpl;
    [|intros [= <- _]; by rewrite app_nil_r].
  destruct (add_spec (on_add w (files._M_used fs)) fs pathname
              (wrap64 (st_size sbuf)) ts Hwf)
    as (ok & fs1 & -> & Hwf1 & _ & Hres).
  simpl. destruct ok; [|done]. intros [= <- _]. by destruct Hres as [-> _].
Qed.

Lemma scan_probed w dir names :
  ∀ k fs sz fs' sz',
    files_wf fs →
    scan w dir names k fs sz = Done (Some (fs', sz')) →
    files.entries fs' = files.entries fs ++ probed w dir k names.
Proof.
  induction names as [|d_name names IH]; intros k fs sz fs' sz' Hwf; simpl.
  - intros [= <- _]. by rewrite app_nil_r.
  - destruct (scan_entry w dir k d_name fs sz) as [[[fs1 sz1]|]| |] eqn:Hentry;
      simpl; try done.
    destruct (scan_entry_probed _ _ _ _ _ _ _ _ Hwf Hentry) as [Hwf1 Hent].
    intros Hrest. rewrite (IH _ _ _ _ _ Hwf1 Hrest), Hent, <- app_assoc.
    by destruct (probed_entry w dir k d_name).
Qed.

(** X13. When the scan of the directory completes, the list holds one entry
    for each name of the directory stream that passes the scanner's test and
    the probe, in the order of the stream and with nothing else: each entry
    records the composed path, the size [stat] reported and the time stamp
    of the probe.  The running size is 24 plus the recorded sizes less 24
    each, modulo 2^64. *)
Theorem scan_keeps_stream_order (w : world) (dir : string) (fs : files.t)
  (sz : Z) :
  scan_directory w dir = Done (Some (fs, sz)) →
  files.entries fs = probed w dir 0 (dir_entries w)
  ∧ files._M_used fs = Z.of_nat (length (probed w dir 0 (dir_entries w)))
  ∧ sz = wrap64 (24 + body_sizes (files.entries fs)).
Proof.
  intros Hscan.
  destruct (scan_directory_inv w dir) as (res & Hscan' & Hinv).
  rewrite Hscan in Hscan'. injection Hscan' as <-.
  destruct (Hinv fs sz eq_refl) as (Hwf & _ & Hsz).
  assert (files_wf files.empty) as Hwf0 by (by repeat split).
  pose proof (scan_probed w dir (dir_entries w) 0%nat files.empty _ fs sz
                Hwf0 Hscan) as Hent.
  change (files.entries files.empty ++ ?l) with l in Hent.
  split; [done|]. split; [|done].
  by rewrite <- Hent, entries_length.
Qed.

(** The statement for the scan of [two_captures]. *)
Lemma scan_keeps_stream_order_witness :
  files.entries files_with_A_B
  = probed two_captures "caps" 0 (dir_entries two_captures)
  ∧ files._M_used files_with_A_B
    = Z.of_nat (length (probed two_captures "caps" 0
                          (dir_entries two_captures)))
  ∧ 128 = wrap64 (24 + body_sizes (files.entries files_with_A_B)).
Proof.
  apply (scan_keeps_stream_order two_captures "caps" files_with_A_B 128).
  vm_compute. reflexivity.
Defined.

(** ** The merge: the header of the output, the failing copy *)








(** ** [main]: one diagnostic for one failure *)

(** X17. Every run that returns ends in one of two ways: with 0, nothing on
    standard error and the output written; or with -1, exactly one
    diagnostic, and no output left by the run (the path was never created,
    or it was unlinked). *)
Theorem one_diagnostic_per_failure `{Libc} (w : world) (argv : list string)
  (r : result) :
  main w argv = Done r →
  (status r = 0 ∧ stderr r = [] ∧ ∃ data, output r = Written data)
  ∨ (status r = -1
     ∧ (∃ d, stderr r = [d])
     ∧ (output r = Untouched ∨ output r = Unlinked)).
Proof.
  unfold main, failure.
  assert (∀ d o, (o = Untouched ∨ o = Unlinked) →
            Done {| status := -1; stderr := [d]; output := o |} = Done r →
            (status r = 0 ∧ stderr r = [] ∧ ∃ data, output r = Written data)
            ∨ (status r = -1 ∧ (∃ d, stderr r = [d])
               ∧ (output r = Untouched ∨ output r = Unlinked))) as Hfail.
  { intros d o Ho [= <-]. right. simpl. split; [done|]. split; [by exists d|done]. }
  destruct argv as [|prog [|dir [|outp [|extra argv]]]];
    try (apply Hfail; by left).
  destruct (stat w dir) as [sbuf|]; [|apply Hfail; by left].
  destruct (S_ISDIR (st_mode sbuf)); [|apply Hfail; by left].
  destruct (sys_creat w outp) as [[w' fd0]|]; [|apply Hfail; by left].
  destruct (opendir_ok w'); [|apply Hfail; by right].
  destruct (scan_directory w' dir) as [[[fs sz]|]| |]; simpl; try done;
    [|apply Hfail; by right].
  destruct (sys_ftruncate w' fd0 sz) as [fd|]; [|apply Hfail; by right].
  match goal with
  | |- context [copy_all ?a ?b ?c ?t ?i ?o] =>
      destruct (copy_all a b c t i o) as [[fd'|d]| |]
  end; simpl; try done; [|apply Hfail; by right].
  intros [= <-]. left. simpl. split; [done|]. split; [done|]. by eexists.
Qed.

(** The statement for the run on [disk_full]. *)
Lemma one_diagnostic_per_failure_witness :
  let r := failure (ErrorCopying 56 "caps/A.pcap" "out.pcap") Unlinked in
  (status r = 0 ∧ stderr r = [] ∧ ∃ data, output r = Written data)
  ∨ (status r = -1
     ∧ (∃ d, stderr r = [d])
     ∧ (output r = Untouched ∨ output r = Unlinked)).
Proof.
  apply (@one_diagnostic_per_failure reference_libc disk_full
           ["mergecap"; "caps"; "out.pcap"]).
  vm_compute. reflexivity.
Defined.

(** ** [add]: when the block has room *)

(** X18. [add] calls [realloc] only when the block is full: when there is
    room, it returns what [strdup] allows whatever [realloc] would have
    answered, and the block keeps its size. *)
Theorem add_with_room_needs_no_realloc (r : alloc_resp) (f : files.t)
  (name : string) (size ts : Z) :
  files_wf f →
  files._M_used f < files._M_size f →
  ∃ f',
    files.add r f name size ts = Done (strdup_ok r, f')
    ∧ files._M_size f' = files._M_size f
    ∧ length (files._M_files f') = length (files._M_files f)
    ∧ files._M_used f'
      = files._M_used f + (if strdup_ok r then 1 else 0).
Proof.
  intros (Hlen & Hused & Hmax) Hroom. unfold files.add, files.allocate.
  unfold PTRDIFF_MAX in Hmax. change pcap.sizeof_file with 24 in Hmax.
  assert ((files._M_used f <? files._M_size f) = true) as ->
    by (by apply Z.ltb_lt).
  destruct (strdup_ok r).
  - destruct (decide _) as [|Hout]; [|lia].
    eexists. split; [done|]. simpl. rewrite length_insert, wrap64_small by lia.
    by rewrite Z.add_comm, Z.add_comm.
  - exists f. repeat split. lia.
Qed.

(** The statement for adding B to the list that holds A alone while
    [realloc] would refuse. *)
Lemma add_with_room_needs_no_realloc_witness :
  let r := {| realloc_ok := false; fresh := junk; strdup_ok := true |} in
  ∃ f',
    files.add r files_with_A "caps/B.PCAP" 72 90250000
      = Done (strdup_ok r, f')
    ∧ files._M_size f' = files._M_size files_with_A
    ∧ length (files._M_files f') = length (files._M_files files_with_A)
    ∧ files._M_used f'
      = files._M_used files_with_A + (if strdup_ok r then 1 else 0).
Proof.
  apply (add_with_room_needs_no_realloc _ files_with_A).
  - repeat split; vm_compute; congruence.
  - reflexivity.
Defined.
